(** * Electrostatics playground: force engine, integrator, field sampler,
      streamline tracer and particle management of [sketch.js].

    JavaScript numbers are idealised as real numbers: rounding, infinities
    and NaN are outside the model.  Mutable objects are modelled by
    functional update; the global [particles] array is a [list Particle]
    indexed by position, passed explicitly. *)

From Stdlib Require Import Reals Lra Lia List.
From stdpp Require Import base list.
Import ListNotations.

Open Scope R_scope.

(** ** Comparisons on numbers, as booleans *)

Definition Rltb (a b : R) : bool := if Rlt_dec a b then true else false.
Definition Reqb (a b : R) : bool := if Req_dec_T a b then true else false.

(** ** The part of p5.js the sketch uses

    Vectors made by [createVector(x, y)] keep [z = 0], so two components
    are enough; [copy()] is the identity on values. *)

Module P5.

Record Vector : Type := createVector { x : R; y : R }.

Definition add (v w : Vector) : Vector :=
  createVector (x v + x w) (y v + y w).

Definition sub (v w : Vector) : Vector :=
  createVector (x v - x w) (y v - y w).

Definition mult (v : Vector) (n : R) : Vector :=
  createVector (x v * n) (y v * n).

(** [div] warns and leaves the vector alone when asked to divide by 0. *)
Definition div (v : Vector) (n : R) : Vector :=
  if Reqb n 0 then v else createVector (x v / n) (y v / n).

Definition magSq (v : Vector) : R := x v * x v + y v * y v.

Definition mag (v : Vector) : R := sqrt (magSq v).

(** [normalize] scales by [1 / len] unless the length is 0. *)
Definition normalize (v : Vector) : Vector :=
  let len := mag v in
  if Reqb len 0 then v else mult v (1 / len).

(** [dist(x1, y1, x2, y2)] is the length of [(x2 - x1, y2 - y1)]. *)
Definition dist (x1 y1 x2 y2 : R) : R :=
  sqrt ((x2 - x1) * (x2 - x1) + (y2 - y1) * (y2 - y1)).

End P5.

(** ** Globals *)

(** The three physics parameters are rebound by the sliders of the control
    panel; every function that reads them takes the current values. *)
Record Globals : Type := mkGlobals {
  globalFriction : R;
  kCoulomb : R;
  minDistance : R
}.

Definition defaultGlobals : Globals :=
  {| globalFriction := 0.02; kCoulomb := 800; minDistance := 8 |}.

Definition canvasWidth : R := 1000.
Definition canvasHeight : R := 600.

(** p5's [width] and [height], set by [createCanvas(canvasWidth, canvasHeight)]. *)
Definition width : R := canvasWidth.
Definition height : R := canvasHeight.

Definition streamlineStep : R := 2.2.
Definition maxStreamlineLen : nat := 600.

(** ** Particle *)

Record Particle : Type := mkParticle {
  pos : P5.Vector;
  vel : P5.Vector;
  acc : P5.Vector;
  charge : R;
  mass : R;
  radius : R
}.

(** [new Particle(x, y, charge)] (the colour is a rendering attribute). *)
Definition newParticle (x y q : R) : Particle :=
  {| pos := P5.createVector x y;
     vel := P5.createVector 0 0;
     acc := P5.createVector 0 0;
     charge := q;
     mass := 1;
     radius := 5 |}.

Definition set_pos (p : Particle) (v : P5.Vector) : Particle :=
  {| pos := v; vel := vel p; acc := acc p;
     charge := charge p; mass := mass p; radius := radius p |}.

Definition set_vel (p : Particle) (v : P5.Vector) : Particle :=
  {| pos := pos p; vel := v; acc := acc p;
     charge := charge p; mass := mass p; radius := radius p |}.

Definition set_acc (p : Particle) (v : P5.Vector) : Particle :=
  {| pos := pos p; vel := vel p; acc := v;
     charge := charge p; mass := mass p; radius := radius p |}.

Definition applyForce (p : Particle) (force : P5.Vector) : Particle :=
  let f := P5.div force (mass p) in
  set_acc p (P5.add (acc p) f).

(** [this.pos.x = 0; this.vel.x *= -1] and its three siblings. *)
Definition bounce_x (p : Particle) (wall : R) : Particle :=
  let p := set_pos p (P5.createVector wall (P5.y (pos p))) in
  set_vel p (P5.createVector (P5.x (vel p) * -1) (P5.y (vel p))).

Definition bounce_y (p : Particle) (wall : R) : Particle :=
  let p := set_pos p (P5.createVector (P5.x (pos p)) wall) in
  set_vel p (P5.createVector (P5.x (vel p)) (P5.y (vel p) * -1)).

Definition handleEdges (p : Particle) : Particle :=
  let p :=
    if Rltb (P5.x (pos p)) 0 then bounce_x p 0
    else if Rltb canvasWidth (P5.x (pos p)) then bounce_x p canvasWidth
    else p in
  if Rltb (P5.y (pos p)) 0 then bounce_y p 0
  else if Rltb canvasHeight (P5.y (pos p)) then bounce_y p canvasHeight
  else p.

Definition update (g : Globals) (p : Particle) : Particle :=
  let p := set_vel p (P5.mult (vel p) (1 - globalFriction g)) in
  let p := set_vel p (P5.add (vel p) (acc p)) in
  let p := set_pos p (P5.add (pos p) (vel p)) in
  let p := set_acc p (P5.createVector 0 0) in
  handleEdges p.

(** ** Coulomb force *)

(** Lines 91-97: the [force] vector of the pair [(p1, p2)]. *)
Definition pairForce (g : Globals) (p1 p2 : Particle) : P5.Vector :=
  let rVec := P5.sub (pos p1) (pos p2) in
  let r := P5.mag rVec in
  let r := if Rltb r (minDistance g) then minDistance g else r in
  let rHat := P5.div rVec r in
  let forceMag := (kCoulomb g * charge p1 * charge p2) / (r * r) in
  P5.mult rHat forceMag.

(** The local [r] of the loop body after line 93: the distance of the
    pair, raised to [minDistance] when it is below it. *)
Definition clampedDistance (g : Globals) (p1 p2 : Particle) : R :=
  let rVec := P5.sub (pos p1) (pos p2) in
  let r := P5.mag rVec in
  if Rltb r (minDistance g) then minDistance g else r.

(** The local [forceMag] of line 96. *)
Definition forceMag (g : Globals) (p1 p2 : Particle) : R :=
  let r := clampedDistance g p1 p2 in
  (kCoulomb g * charge p1 * charge p2) / (r * r).

(** The local [rHat] of line 95. *)
Definition rHat (g : Globals) (p1 p2 : Particle) : P5.Vector :=
  P5.div (P5.sub (pos p1) (pos p2)) (clampedDistance g p1 p2).

(** Body of the inner loop.  [p1] and [p2] are references into the array:
    each [applyForce] mutates the object at its index.  The loops only
    produce indices below [particles.length], so the last case is not
    reached. *)
Definition coulombBody (g : Globals) (i j : nat) (particles : list Particle)
  : list Particle :=
  match particles !! i, particles !! j with
  | Some p1, Some p2 =>
      let force := pairForce g p1 p2 in
      let particles := alter (fun p => applyForce p force) i particles in
      alter (fun p => applyForce p (P5.mult force (-1))) j particles
  | _, _ => particles
  end.

Definition applyCoulombForces (g : Globals) (particles : list Particle)
  : list Particle :=
  foldl (fun ps i =>
           foldl (fun ps j => coulombBody g i j ps) ps
                 (seq (i + 1) (length ps - (i + 1))))
        particles (seq 0 (length particles)).

(** One frame of [draw]: the force pass, then [update] on every particle. *)
Definition tick (g : Globals) (particles : list Particle) : list Particle :=
  map (update g) (applyCoulombForces g particles).

(** ** Electric field *)

Definition fieldStep (g : Globals) (x y : R) (E : R * R) (p : Particle)
  : R * R :=
  let '(Ex, Ey) := E in
  let rx := x - P5.x (pos p) in
  let ry := y - P5.y (pos p) in
  let r2 := rx * rx + ry * ry in
  if Rltb r2 (minDistance g * minDistance g) then (Ex, Ey)
  else
    let r := sqrt r2 in
    let E := (kCoulomb g * charge p) / r2 in
    (Ex + E * (rx / r), Ey + E * (ry / r)).

Definition computeElectricFieldAtPoint (g : Globals)
  (particles : list Particle) (x y : R) : P5.Vector :=
  let '(Ex, Ey) := foldl (fieldStep g x y) (0, 0) particles in
  P5.createVector Ex Ey.

(** ** Field line tracing *)

Definition outsideCanvas (x y : R) : bool :=
  Rltb x 0 || Rltb width x || Rltb y 0 || Rltb height y.

(** The inner [for (let p of particles)] of the tracer returns as soon as
    one negative charge is closer than [radius + 4]. *)
Definition reachedSink (particles : list Particle) (x y : R) : bool :=
  existsb (fun p =>
             Rltb (charge p) 0 &&
             Rltb (P5.dist x y (P5.x (pos p)) (P5.y (pos p))) (radius p + 4))
          particles.

(** The main loop with [n] iterations left. *)
Fixpoint traceLoop (g : Globals) (particles : list Particle) (n : nat)
  (x y : R) (pts : list (R * R)) : list (R * R) :=
  match n with
  | O => pts
  | S n' =>
      let E := computeElectricFieldAtPoint g particles x y in
      let mag := P5.mag E in
      if Rltb mag 0.01 then pts
      else
        let dir := P5.normalize E in
        let x := x + P5.x dir * streamlineStep in
        let y := y + P5.y dir * streamlineStep in
        let pts := pts ++ [(x, y)] in
        if outsideCanvas x y then pts
        else if reachedSink particles x y then pts
        else traceLoop g particles n' x y pts
  end.

Definition traceStreamline (g : Globals) (particles : list Particle)
  (startX startY : R) : list (R * R) :=
  traceLoop g particles maxStreamlineLen startX startY [].

(** ** Particle management *)

Definition addParticle (particles : list Particle) (x y q : R)
  : list Particle :=
  particles ++ [newParticle x y q].

Definition hit (x y : R) (p : Particle) : bool :=
  Rltb (P5.dist x y (P5.x (pos p)) (P5.y (pos p))) (radius p + 2).

Fixpoint getParticleAt (particles : list Particle) (x y : R)
  : option Particle :=
  match particles with
  | [] => None
  | p :: rest => if hit x y p then Some p else getParticleAt rest x y
  end.

(** [for (let i = particles.length - 1; i >= 0; i--)], with [n = i + 1];
    [splice(i, 1)] is [delete i]. *)
Fixpoint deleteLoop (particles : list Particle) (x y : R) (n : nat)
  : list Particle :=
  match n with
  | O => particles
  | S i =>
      match particles !! i with
      | Some p =>
          if hit x y p then delete i particles
          else deleteLoop particles x y i
      | None => particles
      end
  end.

Definition deleteParticleAt (particles : list Particle) (x y : R)
  : list Particle :=
  deleteLoop particles x y (length particles).

(** ** The integrator as the specification words it

    Steps 2-6 of the Motion Integrator, written component by component;
    [update] is compared with their composition below. *)

Definition dampStep (g : Globals) (p : Particle) : Particle :=
  set_vel p (P5.createVector (P5.x (vel p) * (1 - globalFriction g))
                             (P5.y (vel p) * (1 - globalFriction g))).

Definition accelerateStep (p : Particle) : Particle :=
  set_vel p (P5.createVector (P5.x (vel p) + P5.x (acc p))
                             (P5.y (vel p) + P5.y (acc p))).

Definition moveStep (p : Particle) : Particle :=
  set_pos p (P5.createVector (P5.x (pos p) + P5.x (vel p))
                             (P5.y (pos p) + P5.y (vel p))).

Definition resetStep (p : Particle) : Particle :=
  set_acc p (P5.createVector 0 0).

(** One axis of the boundary rule: the new coordinate and velocity
    component for a coordinate [c], velocity component [v], extent [hi]. *)
Definition reflectAxis (hi c v : R) : R * R :=
  if Rltb c 0 then (0, - v)
  else if Rltb hi c then (hi, - v)
  else (c, v).

Definition reflectStep (p : Particle) : Particle :=
  let '(px, vx) := reflectAxis canvasWidth (P5.x (pos p)) (P5.x (vel p)) in
  let '(py, vy) := reflectAxis canvasHeight (P5.y (pos p)) (P5.y (vel p)) in
  set_vel (set_pos p (P5.createVector px py)) (P5.createVector vx vy).

(** The particle as [update] leaves it just before calling [handleEdges]. *)
Definition moved (g : Globals) (p : Particle) : Particle :=
  resetStep (moveStep (accelerateStep (dampStep g p))).

(** The integrator with damping applied after the acceleration is added,
    the order the specification rules out. *)
Definition dampAfterUpdate (g : Globals) (p : Particle) : Particle :=
  reflectStep (resetStep (moveStep (dampStep g (accelerateStep p)))).

Definition inCanvas (v : P5.Vector) : Prop :=
  0 <= P5.x v <= canvasWidth /\ 0 <= P5.y v <= canvasHeight.

(** ** The field sampler as the specification words it *)

Definition distSq (x y : R) (p : Particle) : R :=
  (x - P5.x (pos p)) * (x - P5.x (pos p))
  + (y - P5.y (pos p)) * (y - P5.y (pos p)).

(** A particle contributes unless [r2 < minDistance * minDistance]. *)
Definition contributes (g : Globals) (x y : R) (p : Particle) : bool :=
  negb (Rltb (distSq x y p) (minDistance g * minDistance g)).

(** [(k * charge / r2) * (r_vec / r)]. *)
Definition contribution (g : Globals) (x y : R) (p : Particle) : P5.Vector :=
  let r := sqrt (distSq x y p) in
  P5.mult (P5.createVector ((x - P5.x (pos p)) / r) ((y - P5.y (pos p)) / r))
          (kCoulomb g * charge p / distSq x y p).

Definition vsum (l : list P5.Vector) : P5.Vector :=
  fold_right P5.add (P5.createVector 0 0) l.

(** ** Points of a streamline *)

Definition insideCanvas (pt : R * R) : Prop :=
  0 <= fst pt <= width /\ 0 <= snd pt <= height.

Definition outsideSinks (particles : list Particle) (pt : R * R) : Prop :=
  forall p, In p particles -> charge p < 0 ->
    radius p + 4 <= P5.dist (fst pt) (snd pt) (P5.x (pos p)) (P5.y (pos p)).

Definition clearPoint (particles : list Particle) (pt : R * R) : Prop :=
  insideCanvas pt /\ outsideSinks particles pt.

(** ** Hit test outcomes *)

Definition misses (x y : R) (p : Particle) : Prop := hit x y p = false.

(** ** What the force engine hands to each particle *)

Definition opposite (v : P5.Vector) : P5.Vector :=
  P5.createVector (- P5.x v) (- P5.y v).

(** The vector passed to [applyForce] on particle [i] when the pair of
    [i] and [j] is processed: the pair's [force] for the lower index, and
    [force.copy().mult(-1)] for the higher one. *)
Definition forceOn (g : Globals) (particles : list Particle) (i j : nat)
  : P5.Vector :=
  match particles !! i, particles !! j with
  | Some pi, Some pj =>
      if (i <? j)%nat then pairForce g pi pj
      else P5.mult (pairForce g pj pi) (-1)
  | _, _ => P5.createVector 0 0
  end.

(** The other particles, in the order the loops pair them with [k]. *)
Definition partners (n k : nat) : list nat :=
  seq 0 k ++ seq (k + 1) (n - (k + 1)).

(** Particle [p], at index [k], after [applyForce] for each of [js]. *)
Definition accumulate (g : Globals) (particles : list Particle) (k : nat)
  (p : Particle) (js : list nat) : Particle :=
  set_acc p
    (foldl (fun a j => P5.add a (P5.div (forceOn g particles k j) (mass p)))
           (acc p) js).

(** The index pairs in the order the two loops visit them. *)
Definition allPairs (n : nat) : list (nat * nat) :=
  flat_map (fun i => map (pair i) (seq (i + 1) (n - (i + 1)))) (seq 0 n).

Definition partnersIn (k : nat) (pairs : list (nat * nat)) : list nat :=
  flat_map (fun ij : nat * nat =>
              if (fst ij =? k)%nat then [snd ij]
              else if (snd ij =? k)%nat then [fst ij] else [])
           pairs.

(** Loop invariant: [ps] is [ps0] after the pairs [visited] were processed. *)
Definition forcesApplied (g : Globals) (ps0 : list Particle)
  (visited : list (nat * nat)) (ps : list Particle) : Prop :=
  length ps = length ps0
  /\ forall k p, ps0 !! k = Some p ->
       ps !! k = Some (accumulate g ps0 k p (partnersIn k visited)).

(** ** The two-particle scenario of the specification *)

Definition frictionless : Globals :=
  {| globalFriction := 0; kCoulomb := 800; minDistance := 8 |}.

Definition dipole : list Particle :=
  [newParticle 100 100 1; newParticle 200 100 (-1)].

(** ** Field lines drawn around the positive charges *)

Definition Rleb (a b : R) : bool := if Rle_dec a b then true else false.

Definition numLinesPerCharge : nat := 32.

(** p5's constant [TWO_PI]. *)
Definition TWO_PI : R := 2 * PI.

(** The [n]-th line seeded around [p]: the body of the inner loop of
    [drawFieldLines], up to the polyline it hands to [vertex]. *)
Definition seededLine (g : Globals) (particles : list Particle)
  (p : Particle) (n : nat) : list (R * R) :=
  let angle := (TWO_PI * INR n) / INR numLinesPerCharge in
  let startX := P5.x (pos p) + cos angle * (radius p + 1) in
  let startY := P5.y (pos p) + sin angle * (radius p + 1) in
  traceStreamline g particles startX startY.

(** [drawFieldLines], as the list of polylines it draws, in drawing order;
    particles with [charge <= 0] are passed over. *)
Definition drawFieldLines (g : Globals) (particles : list Particle)
  : list (list (R * R)) :=
  flat_map (fun p =>
              if Rleb (charge p) 0 then []
              else map (seededLine g particles p) (seq 0 numLinesPerCharge))
           particles.

(** ** Quantities used to state what the passes keep *)

Definition weighted (p : Particle) : P5.Vector := P5.mult (acc p) (mass p).

(** Mass times accumulated acceleration, summed over the particles. *)
Definition netForce (particles : list Particle) : P5.Vector :=
  vsum (map weighted particles).

Definition massive (p : Particle) : Prop := mass p <> 0.

(** Consecutive points, starting from [from], are [streamlineStep] apart. *)
Fixpoint evenlySpaced (from : R * R) (pts : list (R * R)) : Prop :=
  match pts with
  | [] => True
  | q :: rest =>
      P5.dist (fst from) (snd from) (fst q) (snd q) = streamlineStep
      /\ evenlySpaced q rest
  end.

(** The Coulomb magnitudes at distance [minDistance], added up. *)
Definition fieldBound (g : Globals) (particles : list Particle) : R :=
  fold_right Rplus 0
    (map (fun p => Rabs (kCoulomb g * charge p)
                   / (minDistance g * minDistance g)) particles).

(** The seed of the line at [angle] around [p], as [drawFieldLines]
    places it. *)
Definition seedPoint (p : Particle) (angle : R) : R * R :=
  (P5.x (pos p) + cos angle * (radius p + 1),
   P5.y (pos p) + sin angle * (radius p + 1)).

(** ** Input layer and frame loop

    The mutable globals of the sketch, with the events that change them.
    [selectedParticle] holds a reference to a particle object: it is
    modelled by the position of that object in [particles], or [Detached]
    once the object has been spliced out of the array or the array has been
    replaced (the object can then still be written to, but nothing reads
    it). *)

Inductive Tool : Type := addPlus | addMinus | addRandom | selectTool | erase.

Inductive Ref : Type := Attached (i : nat) | Detached.

Record Sketch : Type := mkSketch {
  particles : list Particle;
  activeTool : option Tool;
  selectedParticle : option Ref;
  dragging : bool;
  hasPlacedParticle : bool;
  showElectricField : bool;
  showFieldLines : bool;
  physics : Globals
}.

Definition initialSketch : Sketch :=
  {| particles := [];
     activeTool := None;
     selectedParticle := None;
     dragging := false;
     hasPlacedParticle := false;
     showElectricField := false;
     showFieldLines := false;
     physics := defaultGlobals |}.

Definition set_particles (s : Sketch) (ps : list Particle) : Sketch :=
  {| particles := ps; activeTool := activeTool s;
     selectedParticle := selectedParticle s; dragging := dragging s;
     hasPlacedParticle := hasPlacedParticle s;
     showElectricField := showElectricField s;
     showFieldLines := showFieldLines s; physics := physics s |}.

Definition set_activeTool (s : Sketch) (t : option Tool) : Sketch :=
  {| particles := particles s; activeTool := t;
     selectedParticle := selectedParticle s; dragging := dragging s;
     hasPlacedParticle := hasPlacedParticle s;
     showElectricField := showElectricField s;
     showFieldLines := showFieldLines s; physics := physics s |}.

Definition set_selectedParticle (s : Sketch) (r : option Ref) : Sketch :=
  {| particles := particles s; activeTool := activeTool s;
     selectedParticle := r; dragging := dragging s;
     hasPlacedParticle := hasPlacedParticle s;
     showElectricField := showElectricField s;
     showFieldLines := showFieldLines s; physics := physics s |}.

Definition set_dragging (s : Sketch) (b : bool) : Sketch :=
  {| particles := particles s; activeTool := activeTool s;
     selectedParticle := selectedParticle s; dragging := b;
     hasPlacedParticle := hasPlacedParticle s;
     showElectricField := showElectricField s;
     showFieldLines := showFieldLines s; physics := physics s |}.

Definition set_hasPlacedParticle (s : Sketch) (b : bool) : Sketch :=
  {| particles := particles s; activeTool := activeTool s;
     selectedParticle := selectedParticle s; dragging := dragging s;
     hasPlacedParticle := b;
     showElectricField := showElectricField s;
     showFieldLines := showFieldLines s; physics := physics s |}.

Definition set_showElectricField (s : Sketch) (b : bool) : Sketch :=
  {| particles := particles s; activeTool := activeTool s;
     selectedParticle := selectedParticle s; dragging := dragging s;
     hasPlacedParticle := hasPlacedParticle s;
     showElectricField := b;
     showFieldLines := showFieldLines s; physics := physics s |}.

Definition set_showFieldLines (s : Sketch) (b : bool) : Sketch :=
  {| particles := particles s; activeTool := activeTool s;
     selectedParticle := selectedParticle s; dragging := dragging s;
     hasPlacedParticle := hasPlacedParticle s;
     showElectricField := showElectricField s;
     showFieldLines := b; physics := physics s |}.

Definition set_physics (s : Sketch) (g : Globals) : Sketch :=
  {| particles := particles s; activeTool := activeTool s;
     selectedParticle := selectedParticle s; dragging := dragging s;
     hasPlacedParticle := hasPlacedParticle s;
     showElectricField := showElectricField s;
     showFieldLines := showFieldLines s; physics := g |}.

Definition mouseInCanvas (mouseX mouseY : R) : bool :=
  Rleb 0 mouseX && Rleb mouseX width && Rleb 0 mouseY && Rleb mouseY height.

(** The index of the object [getParticleAt] returns. *)
Fixpoint hitIndex (ps : list Particle) (x y : R) : option nat :=
  match ps with
  | [] => None
  | p :: rest => if hit x y p then Some O else S <$> hitIndex rest x y
  end.

(** The index [deleteLoop] splices out, if any. *)
Fixpoint erasedIndex (ps : list Particle) (x y : R) (n : nat) : option nat :=
  match n with
  | O => None
  | S i =>
      match ps !! i with
      | Some p => if hit x y p then Some i else erasedIndex ps x y i
      | None => None
      end
  end.

(** Where a reference points after [splice(i, 1)]. *)
Definition afterSplice (i : nat) (r : Ref) : Ref :=
  match r with
  | Attached k =>
      if (k <? i)%nat then Attached k
      else if (k =? i)%nat then Detached
      else Attached (k - 1)
  | Detached => Detached
  end.

Definition afterErase (ps : list Particle) (x y : R) (r : option Ref)
  : option Ref :=
  match erasedIndex ps x y (length ps) with
  | Some i => afterSplice i <$> r
  | None => r
  end.

(** [random([1, -1])], with the draw passed in. *)
Definition randomCharge (first : bool) : R := if first then 1 else -1.

Definition place (s : Sketch) (mouseX mouseY q : R) : Sketch :=
  set_hasPlacedParticle
    (set_particles s (addParticle (particles s) mouseX mouseY q)) true.

Definition mousePressed (s : Sketch) (mouseX mouseY : R) (first : bool)
  : Sketch :=
  if negb (mouseInCanvas mouseX mouseY) then s
  else
    match activeTool s with
    | Some addPlus => place s mouseX mouseY 1
    | Some addMinus => place s mouseX mouseY (-1)
    | Some addRandom => place s mouseX mouseY (randomCharge first)
    | Some erase =>
        set_selectedParticle
          (set_particles s (deleteParticleAt (particles s) mouseX mouseY))
          (afterErase (particles s) mouseX mouseY (selectedParticle s))
    | Some selectTool =>
        let found := Attached <$> hitIndex (particles s) mouseX mouseY in
        set_dragging (set_selectedParticle s found)
                     (match found with Some _ => true | None => false end)
    | None => s
    end.

(** [selectedParticle.pos.set(mouseX, mouseY)]. *)
Definition mouseDragged (s : Sketch) (mouseX mouseY : R) : Sketch :=
  match activeTool s, dragging s, selectedParticle s with
  | Some selectTool, true, Some (Attached i) =>
      set_particles s
        (alter (fun p => set_pos p (P5.createVector mouseX mouseY)) i
               (particles s))
  | _, _, _ => s
  end.

Definition mouseReleased (s : Sketch) : Sketch :=
  set_selectedParticle (set_dragging s false) None.

(** The [onclick] of the clear button: [particles = []]. *)
Definition clearClicked (s : Sketch) : Sketch :=
  set_selectedParticle (set_particles s [])
    (match selectedParticle s with
     | Some _ => Some Detached
     | None => None
     end).

(** [draw], as far as it changes the state. *)
Definition draw (s : Sketch) : Sketch :=
  set_particles s (tick (physics s) (particles s)).

Inductive Event : Type :=
  | MousePressed (mouseX mouseY : R) (first : bool)
  | MouseDragged (mouseX mouseY : R)
  | MouseReleased
  | ToolClicked (t : Tool)
  | ClearClicked
  | FieldToggled
  | LinesToggled
  | SliderK (value : R)
  | SliderFriction (value : R)
  | SliderMinDist (value : R)
  | Frame.

Definition handle (s : Sketch) (e : Event) : Sketch :=
  match e with
  | MousePressed mouseX mouseY first => mousePressed s mouseX mouseY first
  | MouseDragged mouseX mouseY => mouseDragged s mouseX mouseY
  | MouseReleased => mouseReleased s
  | ToolClicked t => set_activeTool s (Some t)
  | ClearClicked => clearClicked s
  | FieldToggled => set_showElectricField s (negb (showElectricField s))
  | LinesToggled => set_showFieldLines s (negb (showFieldLines s))
  | SliderK value =>
      set_physics s {| globalFriction := globalFriction (physics s);
                       kCoulomb := value;
                       minDistance := minDistance (physics s) |}
  | SliderFriction value =>
      set_physics s {| globalFriction := value;
                       kCoulomb := kCoulomb (physics s);
                       minDistance := minDistance (physics s) |}
  | SliderMinDist value =>
      set_physics s {| globalFriction := globalFriction (physics s);
                       kCoulomb := kCoulomb (physics s);
                       minDistance := value |}
  | Frame => draw s
  end.

Definition run (s : Sketch) (events : list Event) : Sketch :=
  foldl handle s events.

(** The counts [updateInfoPanel] shows. *)
Definition posCount (ps : list Particle) : nat :=
  length (List.filter (fun p => Reqb (charge p) 1) ps).

Definition negCount (ps : list Particle) : nat :=
  (length ps - posCount ps)%nat.

(** A particle as the tools make it. *)
Definition toolMade (p : Particle) : Prop :=
  (charge p = 1 \/ charge p = -1) /\ mass p = 1 /\ radius p = 5.

(** What every reachable state satisfies. *)
Definition wellFormed (s : Sketch) : Prop :=
  Forall toolMade (particles s)
  /\ (particles s = [] \/ hasPlacedParticle s = true)
  /\ (dragging s = false \/ is_Some (selectedParticle s)).

(** * Proofs *)

(** ** Numbers *)

Lemma Rltb_true (a b : R) : Rltb a b = true <-> a < b.
Proof. unfold Rltb. destruct (Rlt_dec a b); split; intros; try easy. Qed.

Lemma Rltb_false (a b : R) : Rltb a b = false <-> b <= a.
Proof.
  unfold Rltb. destruct (Rlt_dec a b); split; intros; try easy; lra.
Qed.

Lemma Reqb_true (a b : R) : Reqb a b = true <-> a = b.
Proof. unfold Reqb. destruct (Req_dec_T a b); split; intros; easy. Qed.

Lemma Reqb_false (a b : R) : Reqb a b = false <-> a <> b.
Proof. unfold Reqb. destruct (Req_dec_T a b); split; intros; easy. Qed.

Ltac Rltb_cases :=
  repeat match goal with
  | |- context [Rltb ?a ?b] =>
      let H := fresh "Hlt" in
      destruct (Rltb a b) eqn:H;
      [apply Rltb_true in H | apply Rltb_false in H]
  end.

(** ** Motion integrator *)

Lemma vector_eq (a b c d : R) :
  a = c -> b = d -> P5.createVector a b = P5.createVector c d.
Proof. intros -> ->. reflexivity. Qed.

Lemma handleEdges_reflectStep (p : Particle) : handleEdges p = reflectStep p.
Proof.
  destruct p as [[px py] [vx vy] a q m r].
  unfold handleEdges, reflectStep, reflectAxis, bounce_x, bounce_y,
    set_pos, set_vel; simpl.
  Rltb_cases; simpl in *; Rltb_cases; simpl in *; try lra;
    f_equal; apply vector_eq; lra.
Qed.

Lemma update_moved (g : Globals) (p : Particle) :
  update g p = handleEdges (moved g p).
Proof. reflexivity. Qed.

(** C6: [update] performs damping, acceleration, move, accumulator reset and
    boundary reflection in this order; the velocity used for the move is
    [vel * (1 - friction) + acc], damping first. *)
Theorem update_step_order (g : Globals) (p : Particle) :
  update g p
  = reflectStep (resetStep (moveStep (accelerateStep (dampStep g p))))
  /\ P5.x (vel (moved g p))
     = P5.x (vel p) * (1 - globalFriction g) + P5.x (acc p)
  /\ P5.y (vel (moved g p))
     = P5.y (vel p) * (1 - globalFriction g) + P5.y (acc p)
  /\ P5.x (pos (moved g p)) = P5.x (pos p) + P5.x (vel (moved g p))
  /\ P5.y (pos (moved g p)) = P5.y (pos p) + P5.y (vel (moved g p))
  /\ acc (update g p) = P5.createVector 0 0.
Proof.
  split.
  - rewrite update_moved. apply handleEdges_reflectStep.
  - repeat split; try reflexivity.
    rewrite update_moved, handleEdges_reflectStep.
    unfold reflectStep.
    destruct (reflectAxis canvasWidth _ _), (reflectAxis canvasHeight _ _).
    reflexivity.
Qed.

(** Damping after the acceleration gives a different velocity:
    with velocity [(1, 0)], acceleration [(1, 0)] and friction [1/2] the
    sketch ends the tick at speed [3/2], the other order at speed [1]. *)
Lemma update_not_dampAfter :
  let g := {| globalFriction := 0.5; kCoulomb := 800; minDistance := 8 |} in
  let p := set_acc (set_vel (newParticle 100 100 1) (P5.createVector 1 0))
                   (P5.createVector 1 0) in
  P5.x (vel (update g p)) = 1.5 /\ P5.x (vel (dampAfterUpdate g p)) = 1.
Proof.
  cbv zeta. rewrite update_moved, handleEdges_reflectStep.
  unfold dampAfterUpdate, reflectStep, reflectAxis, canvasWidth, canvasHeight.
  simpl. Rltb_cases; simpl; lra.
Qed.

Lemma reflectAxis_range (hi c v : R) :
  0 <= hi -> 0 <= fst (reflectAxis hi c v) <= hi.
Proof. intros Hhi. unfold reflectAxis. Rltb_cases; simpl; lra. Qed.

Lemma reflectStep_pos_vel (p : Particle) :
  (P5.x (pos (reflectStep p)), P5.x (vel (reflectStep p)))
  = reflectAxis canvasWidth (P5.x (pos p)) (P5.x (vel p))
  /\ (P5.y (pos (reflectStep p)), P5.y (vel (reflectStep p)))
     = reflectAxis canvasHeight (P5.y (pos p)) (P5.y (vel p)).
Proof.
  unfold reflectStep.
  destruct (reflectAxis canvasWidth _ _), (reflectAxis canvasHeight _ _).
  split; reflexivity.
Qed.

Lemma update_inCanvas (g : Globals) (p : Particle) : inCanvas (pos (update g p)).
Proof.
  rewrite update_moved, handleEdges_reflectStep.
  destruct (reflectStep_pos_vel (moved g p)) as [Hx Hy].
  pose proof (reflectAxis_range canvasWidth (P5.x (pos (moved g p)))
                (P5.x (vel (moved g p)))) as Rx.
  pose proof (reflectAxis_range canvasHeight (P5.y (pos (moved g p)))
                (P5.y (vel (moved g p)))) as Ry.
  rewrite <- Hx in Rx. rewrite <- Hy in Ry. simpl in Rx, Ry.
  unfold canvasWidth, canvasHeight in *.
  split; [apply Rx | apply Ry]; lra.
Qed.

(** C5: after [update] (hence after every tick) the position is inside
    [0, canvasWidth] x [0, canvasHeight]; on each axis separately a
    coordinate below 0 becomes 0, one above the extent becomes the extent,
    in both cases with that axis's velocity negated, and a coordinate in
    range keeps its value and velocity. *)
Theorem update_position_in_canvas (g : Globals) :
  (forall p : Particle,
      let m := moved g p in
      let q := update g p in
      inCanvas (pos q)
      /\ (P5.x (pos q), P5.x (vel q))
         = (if Rltb (P5.x (pos m)) 0 then (0, - P5.x (vel m))
            else if Rltb canvasWidth (P5.x (pos m))
                 then (canvasWidth, - P5.x (vel m))
                 else (P5.x (pos m), P5.x (vel m)))
      /\ (P5.y (pos q), P5.y (vel q))
         = (if Rltb (P5.y (pos m)) 0 then (0, - P5.y (vel m))
            else if Rltb canvasHeight (P5.y (pos m))
                 then (canvasHeight, - P5.y (vel m))
                 else (P5.y (pos m), P5.y (vel m))))
  /\ (forall particles : list Particle,
         Forall (fun q => inCanvas (pos q)) (tick g particles)).
Proof.
  split.
  - intros p m q. split; [apply update_inCanvas|].
    subst q. rewrite update_moved, handleEdges_reflectStep.
    apply (reflectStep_pos_vel (moved g p)).
  - intros particles. unfold tick.
    induction (applyCoulombForces g particles) as [|p ps IH]; simpl.
    + constructor.
    + constructor; [apply update_inCanvas | exact IH].
Qed.

(** ** Particle management *)

Lemma getParticleAt_none (particles : list Particle) (x y : R) :
  Forall (misses x y) particles -> getParticleAt particles x y = None.
Proof.
  induction 1 as [|p ps Hp _ IH]; simpl; [reflexivity|].
  unfold misses in Hp. rewrite Hp. exact IH.
Qed.

Lemma getParticleAt_first (older newer : list Particle) (p : Particle)
  (x y : R) :
  Forall (misses x y) older -> hit x y p = true ->
  getParticleAt (older ++ p :: newer) x y = Some p.
Proof.
  intros Hold Hp. induction Hold as [|q qs Hq _ IH]; simpl.
  - rewrite Hp. reflexivity.
  - unfold misses in Hq. rewrite Hq. exact IH.
Qed.

(** Either every particle misses, or the list splits at its first hit. *)
Lemma first_hit_split (particles : list Particle) (x y : R) :
  Forall (misses x y) particles
  \/ exists older p newer,
       particles = older ++ p :: newer /\ hit x y p = true
       /\ Forall (misses x y) older.
Proof.
  induction particles as [|q qs IH].
  - left. constructor.
  - destruct (hit x y q) eqn:Hq.
    + right. exists [], q, qs. repeat split; [exact Hq | constructor].
    + destruct IH as [IH | (older & p & newer & -> & Hp & Hold)].
      * left. constructor; assumption.
      * right. exists (q :: older), p, newer.
        repeat split; [exact Hp | constructor; assumption].
Qed.

(** The downward scan over [todo], when everything above it, [seen], has
    already missed. *)
Lemma deleteLoop_scan (x y : R) (todo seen : list Particle) :
  Forall (misses x y) seen ->
  (Forall (misses x y) todo
   /\ deleteLoop (todo ++ seen) x y (length todo) = todo ++ seen)
  \/ exists older p newer,
       todo ++ seen = older ++ p :: newer /\ hit x y p = true
       /\ Forall (misses x y) newer
       /\ deleteLoop (todo ++ seen) x y (length todo) = older ++ newer.
Proof.
  revert seen. induction todo as [|q todo IH] using rev_ind; intros seen Hseen.
  - left. split; [constructor | reflexivity].
  - rewrite length_app, Nat.add_comm. simpl.
    rewrite <- app_assoc. simpl.
    rewrite list_lookup_middle by reflexivity.
    destruct (hit x y q) eqn:Hq.
    + right. exists todo, q, seen. repeat split; try assumption.
      apply delete_middle.
    + destruct (IH (q :: seen)) as [[Hall Heq] | Hex].
      * constructor; assumption.
      * left. split; [|exact Heq].
        apply Forall_app. split; [exact Hall|].
        constructor; [exact Hq | constructor].
      * right. exact Hex.
Qed.

(** C9: when nothing is within [radius + 2] of the point, [deleteParticleAt]
    leaves the list unchanged and [getParticleAt] returns [None]; otherwise
    [deleteParticleAt] removes the last (newest) hit and nothing else, while
    [getParticleAt] returns the first (oldest) hit. *)
Theorem delete_newest_get_oldest (particles : list Particle) (x y : R) :
  (Forall (misses x y) particles
   /\ deleteParticleAt particles x y = particles
   /\ getParticleAt particles x y = None)
  \/ ((exists older p newer,
          particles = older ++ p :: newer /\ hit x y p = true
          /\ Forall (misses x y) newer
          /\ deleteParticleAt particles x y = older ++ newer)
      /\ (exists older p newer,
             particles = older ++ p :: newer /\ hit x y p = true
             /\ Forall (misses x y) older
             /\ getParticleAt particles x y = Some p)).
Proof.
  destruct (first_hit_split particles x y)
    as [Hall | (older & p & newer & Heq & Hp & Hold)].
  - left. split; [exact Hall|]. split; [|apply getParticleAt_none; exact Hall].
    destruct (deleteLoop_scan x y particles [] (List.Forall_nil _))
      as [[_ Hd] | (o & q & n & Hsplit & Hq & _)].
    + rewrite app_nil_r in Hd. exact Hd.
    + rewrite app_nil_r in Hsplit. rewrite Hsplit in Hall.
      apply Forall_app in Hall as [_ Hall].
      inversion Hall as [|? ? Hmiss _]. unfold misses in Hmiss. congruence.
  - right. split.
    + destruct (deleteLoop_scan x y particles [] (List.Forall_nil _))
        as [[Hall _] | (o & q & n & Hsplit & Hq & Hnew & Hd)].
      * rewrite Heq in Hall. apply Forall_app in Hall as [_ Hall].
        inversion Hall as [|? ? Hmiss _]. unfold misses in Hmiss. congruence.
      * rewrite app_nil_r in Hsplit, Hd.
        exists o, q, n. repeat split; assumption.
    + exists older, p, newer. repeat split; try assumption.
      rewrite Heq. apply getParticleAt_first; assumption.
Qed.

(** ** Streamline tracer *)

Lemma traceLoop_S (g : Globals) (particles : list Particle) (n : nat)
  (x y : R) (pts : list (R * R)) :
  traceLoop g particles (S n) x y pts
  = let E := computeElectricFieldAtPoint g particles x y in
    if Rltb (P5.mag E) 0.01 then pts
    else
      let x' := x + P5.x (P5.normalize E) * streamlineStep in
      let y' := y + P5.y (P5.normalize E) * streamlineStep in
      if outsideCanvas x' y' then pts ++ [(x', y')]
      else if reachedSink particles x' y' then pts ++ [(x', y')]
      else traceLoop g particles n x' y' (pts ++ [(x', y')]).
Proof. reflexivity. Qed.


Lemma sqrt_zero_sum : sqrt (0 * 0 + 0 * 0) = 0.
Proof. replace (0 * 0 + 0 * 0) with 0 by lra. apply sqrt_0. Qed.

(** A zero field stops the tracer at once. *)
Lemma traceLoop_zero_field (g : Globals) (particles : list Particle)
  (n : nat) (x y : R) (pts : list (R * R)) :
  computeElectricFieldAtPoint g particles x y = P5.createVector 0 0 ->
  traceLoop g particles n x y pts = pts.
Proof.
  intros HE. destruct n as [|n]; [reflexivity|].
  rewrite traceLoop_S, HE. cbv zeta.
  unfold P5.mag, P5.magSq. simpl. rewrite sqrt_zero_sum.
  rewrite (proj2 (Rltb_true 0 0.01)) by lra. reflexivity.
Qed.

Lemma outsideCanvas_false (x y : R) :
  outsideCanvas x y = false -> insideCanvas (x, y).
Proof.
  unfold outsideCanvas, insideCanvas. simpl.
  intros H.
  apply orb_false_elim in H as [H Hh].
  apply orb_false_elim in H as [H Hy].
  apply orb_false_elim in H as [Hx Hw].
  apply Rltb_false in Hx, Hw, Hy, Hh. lra.
Qed.

Lemma reachedSink_false (particles : list Particle) (x y : R) :
  reachedSink particles x y = false -> outsideSinks particles (x, y).
Proof.
  unfold reachedSink, outsideSinks. simpl.
  induction particles as [|q qs IH]; intros H p Hin Hneg; [destruct Hin|].
  simpl in H. apply orb_false_elim in H as [Hq Hqs].
  destruct Hin as [-> | Hin]; [|apply IH; assumption].
  apply andb_false_iff in Hq as [Hq | Hq]; apply Rltb_false in Hq; lra.
Qed.

Lemma Forall_removelast {A : Type} (P : A -> Prop) (l : list A) :
  Forall P l -> Forall P (removelast l).
Proof.
  induction 1 as [|a l Ha Hl IH]; simpl; [constructor|].
  destruct l; [constructor|]. constructor; assumption.
Qed.

Lemma traceLoop_clear (g : Globals) (particles : list Particle) (n : nat) :
  forall (x y : R) (pts : list (R * R)),
    Forall (clearPoint particles) pts ->
    Forall (clearPoint particles)
           (removelast (traceLoop g particles n x y pts)).
Proof.
  induction n as [|n IH]; intros x y pts Hpts.
  - simpl. apply Forall_removelast. exact Hpts.
  - rewrite traceLoop_S. cbv zeta.
    destruct (Rltb _ 0.01); [apply Forall_removelast; exact Hpts|].
    destruct (outsideCanvas _ _) eqn:Hout;
      [rewrite removelast_last; exact Hpts|].
    destruct (reachedSink _ _ _) eqn:Hsink;
      [rewrite removelast_last; exact Hpts|].
    apply IH. apply Forall_app. split; [exact Hpts|].
    constructor; [|constructor].
    split; [apply outsideCanvas_false | apply reachedSink_false]; assumption.
Qed.

(** ** A lone charge *)

Lemma lone_field_skipped (g : Globals) (p : Particle) (x y : R) :
  distSq x y p < minDistance g * minDistance g ->
  computeElectricFieldAtPoint g [p] x y = P5.createVector 0 0.
Proof.
  intros Hnear. unfold computeElectricFieldAtPoint. simpl.
  unfold fieldStep. fold (distSq x y p).
  rewrite (proj2 (Rltb_true _ _) Hnear). reflexivity.
Qed.

(** The field of one charge at a point on the horizontal line through it,
    [d] away on the side given by the sign [s]. *)
Lemma lone_field_on_axis (g : Globals) (p : Particle) (s d : R) :
  s * s = 1 -> 0 < d -> minDistance g * minDistance g <= d * d ->
  computeElectricFieldAtPoint g [p] (P5.x (pos p) + s * d) (P5.y (pos p))
  = P5.createVector (s * (kCoulomb g * charge p / (d * d))) 0.
Proof.
  intros Hs Hd Hfar. unfold computeElectricFieldAtPoint. simpl.
  unfold fieldStep.
  set (px := P5.x (pos p)). set (py := P5.y (pos p)).
  replace ((px + s * d - px) * (px + s * d - px) + (py - py) * (py - py))
    with (d * d) by (transitivity ((s * s) * (d * d)); [rewrite Hs|]; ring).
  rewrite (proj2 (Rltb_false _ _) Hfar).
  rewrite sqrt_square by lra.
  apply vector_eq; field; lra.
Qed.

(** One iteration of the tracer where the field points in the [-x]
    direction with magnitude at least the threshold. *)
Lemma traceLoop_step_left (g : Globals) (particles : list Particle)
  (n : nat) (x y e : R) (pts : list (R * R)) :
  computeElectricFieldAtPoint g particles x y = P5.createVector e 0 ->
  e <= -0.01 ->
  traceLoop g particles (S n) x y pts
  = let x' := x - streamlineStep in
    if outsideCanvas x' y then pts ++ [(x', y)]
    else if reachedSink particles x' y then pts ++ [(x', y)]
    else traceLoop g particles n x' y (pts ++ [(x', y)]).
Proof.
  intros HE He. rewrite traceLoop_S, HE. cbv zeta.
  unfold P5.normalize, P5.mag, P5.magSq. simpl.
  replace (e * e + 0 * 0) with ((- e) * (- e)) by ring.
  rewrite sqrt_square by lra.
  rewrite (proj2 (Rltb_false _ _)) by lra.
  rewrite (proj2 (Reqb_false _ _)) by lra.
  simpl.
  replace (x + e * (1 / - e) * streamlineStep) with (x - streamlineStep)
    by (field; lra).
  replace (y + 0 * (1 / - e) * streamlineStep) with y by (field; lra).
  reflexivity.
Qed.

Lemma dist_on_axis (x1 x2 y : R) :
  x2 <= x1 -> P5.dist x1 y x2 y = x1 - x2.
Proof.
  intros H. unfold P5.dist.
  replace ((x2 - x1) * (x2 - x1) + (y - y) * (y - y))
    with ((x1 - x2) * (x1 - x2)) by ring.
  apply sqrt_square. lra.
Qed.

Ltac forget_rest_of_loop :=
  match goal with
  | |- context [traceLoop ?g ?ps ?n ?x ?y ?pts] =>
      generalize (traceLoop g ps n x y pts); intros ?
  end.

(** A line seeded [d] to the right of a lone charge [-1] at [(100, 100)],
    with [8 <= d < 11.2], is one point long: the first step lands inside
    the sink radius [5 + 4]. *)
Lemma lone_negative_one_step (d : R) :
  8 <= d -> d < 11.2 ->
  traceStreamline defaultGlobals [newParticle 100 100 (-1)] (100 + d) 100
  = [(100 + d - 2.2, 100)].
Proof.
  intros Hlo Hhi. unfold traceStreamline, maxStreamlineLen.
  change 600%nat with (S 599).
  assert (HE : computeElectricFieldAtPoint defaultGlobals
                 [newParticle 100 100 (-1)] (100 + d) 100
               = P5.createVector (1 * (800 * -1 / (d * d))) 0).
  { replace (100 + d) with (100 + 1 * d) by ring.
    apply (lone_field_on_axis defaultGlobals (newParticle 100 100 (-1)) 1 d);
      simpl; nra. }
  rewrite (traceLoop_step_left _ _ _ _ _ _ _ HE).
  - cbv zeta. forget_rest_of_loop.
    unfold streamlineStep, outsideCanvas, width, height,
      canvasWidth, canvasHeight.
    rewrite !(proj2 (Rltb_false _ _)) by lra. simpl.
    rewrite dist_on_axis by lra.
    rewrite !(proj2 (Rltb_true _ _)) by lra. reflexivity.
  - assert (Hdd : d * d <= 11.2 * 11.2) by nra.
    assert (Hpos : 0 < d * d) by nra.
    assert (Hinv : 0.01 <= 800 / (d * d)).
    { apply Rmult_le_reg_r with (d * d); [exact Hpos|].
      replace (800 / (d * d) * (d * d)) with 800 by (field; lra). lra. }
    replace (1 * (800 * -1 / (d * d))) with (- (800 / (d * d)))
      by (field; lra).
    lra.
Qed.

(** A line seeded 10 to the left of a lone charge [+1] at [(10, 300)] steps
    to [x = -2.2], off the canvas, and that point is kept. *)
Lemma lone_positive_leaves_canvas :
  traceStreamline defaultGlobals [newParticle 10 300 1] 0 300
  = [(-2.2, 300)].
Proof.
  unfold traceStreamline, maxStreamlineLen. change 600%nat with (S 599).
  assert (HE : computeElectricFieldAtPoint defaultGlobals
                 [newParticle 10 300 1] 0 300
               = P5.createVector (-1 * (800 * 1 / (10 * 10))) 0).
  { replace 0 with (10 + -1 * 10) at 1 by lra.
    apply (lone_field_on_axis defaultGlobals (newParticle 10 300 1) (-1) 10);
      simpl; lra. }
  rewrite (traceLoop_step_left _ _ _ _ _ _ _ HE) by lra.
  cbv zeta. forget_rest_of_loop. unfold streamlineStep, outsideCanvas.
  rewrite (proj2 (Rltb_true (0 - 2.2) 0)) by lra. simpl.
  repeat f_equal. lra.
Qed.


(** C10: every point of a traced line except possibly the last is inside
    the canvas and at least [radius + 4] away from every negative charge;
    the last point is appended before these checks and can fail either:
    one line ends inside a sink radius, another ends off the canvas. *)
Theorem streamline_points_clear_but_last (g : Globals)
  (particles : list Particle) (startX startY : R) :
  Forall (clearPoint particles)
         (removelast (traceStreamline g particles startX startY))
  /\ (exists ps sx sy pt,
         last (traceStreamline defaultGlobals ps sx sy) = Some pt
         /\ insideCanvas pt /\ ~ outsideSinks ps pt)
  /\ (exists ps sx sy pt,
         last (traceStreamline defaultGlobals ps sx sy) = Some pt
         /\ ~ insideCanvas pt).
Proof.
  split; [|split].
  - unfold traceStreamline. apply traceLoop_clear. constructor.
  - exists [newParticle 100 100 (-1)], (100 + 10), 100, (100 + 10 - 2.2, 100).
    rewrite lone_negative_one_step by lra.
    split; [reflexivity|]. split.
    + unfold insideCanvas, width, height, canvasWidth, canvasHeight.
      simpl. lra.
    + intros Hclear.
      specialize (Hclear (newParticle 100 100 (-1)) (or_introl eq_refl)).
      simpl in Hclear. rewrite dist_on_axis in Hclear by lra. lra.
  - exists [newParticle 10 300 1], 0, 300, (-2.2, 300).
    rewrite lone_positive_leaves_canvas.
    split; [reflexivity|].
    unfold insideCanvas. simpl. lra.
Qed.

(** C7, as stated, fails: a line seeded 8.5 from a lone charge [-1], inside
    its sink radius, has one point. *)
Lemma lone_negative_near_seed_not_empty :
  length (traceStreamline defaultGlobals [newParticle 100 100 (-1)]
                          (100 + 8.5) 100) <> 0%nat.
Proof. rewrite lone_negative_one_step by lra. simpl. lia. Qed.

(** C7, amended: with a single charge and a seed closer to it than
    [minDistance], the sampler skips the charge, the field is zero and the
    traced line is empty. *)
Theorem lone_charge_within_minDistance_empty (g : Globals) (p : Particle)
  (startX startY : R) :
  distSq startX startY p < minDistance g * minDistance g ->
  traceStreamline g [p] startX startY = [].
Proof.
  intros Hnear. unfold traceStreamline.
  apply traceLoop_zero_field. apply lone_field_skipped. exact Hnear.
Qed.

Lemma lone_charge_within_minDistance_empty_witness :
  distSq 106 100 (newParticle 100 100 (-1))
  < minDistance defaultGlobals * minDistance defaultGlobals
  /\ traceStreamline defaultGlobals [newParticle 100 100 (-1)] 106 100 = [].
Proof.
  assert (H : distSq 106 100 (newParticle 100 100 (-1))
              < minDistance defaultGlobals * minDistance defaultGlobals)
    by (unfold distSq; simpl; lra).
  split; [exact H|].
  apply (lone_charge_within_minDistance_empty defaultGlobals
           (newParticle 100 100 (-1)) 106 100 H).
Defined.

(** ** Field sampler *)

Lemma fieldStep_contribution (g : Globals) (x y : R) (E : R * R)
  (p : Particle) :
  fieldStep g x y E p
  = if contributes g x y p
    then (fst E + P5.x (contribution g x y p),
          snd E + P5.y (contribution g x y p))
    else E.
Proof.
  destruct E as [Ex Ey]. unfold fieldStep, contributes, contribution.
  fold (distSq x y p).
  destruct (Rltb (distSq x y p) _); simpl; [reflexivity|].
  f_equal; ring.
Qed.

Lemma foldl_fieldStep (g : Globals) (x y : R) (particles : list Particle) :
  forall E : R * R,
    foldl (fieldStep g x y) E particles
    = let total := vsum (map (contribution g x y)
                             (List.filter (contributes g x y) particles)) in
      (fst E + P5.x total, snd E + P5.y total).
Proof.
  induction particles as [|p ps IH]; intros [Ex Ey].
  - simpl. f_equal; ring.
  - cbn [foldl]. rewrite IH, fieldStep_contribution. cbv zeta.
    cbn [List.filter].
    destruct (contributes g x y p); simpl; f_equal; ring.
Qed.

(** C3: the sampled field is the vector sum of
    [(k * charge / r2) * (r_vec / r)] over exactly the particles with
    [r2 >= minDistance * minDistance]; a particle with
    [r2 < minDistance * minDistance] is left out of the sum. *)
Theorem field_is_sum_of_far_contributions (g : Globals)
  (particles : list Particle) (x y : R) :
  computeElectricFieldAtPoint g particles x y
  = vsum (map (contribution g x y)
              (List.filter (contributes g x y) particles))
  /\ (forall p, contributes g x y p = true
                <-> minDistance g * minDistance g <= distSq x y p)
  /\ (forall p, contributes g x y p = false
                <-> distSq x y p < minDistance g * minDistance g).
Proof.
  split; [|split].
  - unfold computeElectricFieldAtPoint. rewrite foldl_fieldStep. cbv zeta.
    simpl fst. simpl snd.
    destruct (vsum _) as [tx ty]. simpl. apply vector_eq; ring.
  - intros p. unfold contributes. rewrite negb_true_iff. apply Rltb_false.
  - intros p. unfold contributes. rewrite negb_false_iff. apply Rltb_true.
Qed.

(** ** Force engine *)

Lemma partnersIn_app (k : nat) (l1 l2 : list (nat * nat)) :
  partnersIn k (l1 ++ l2) = partnersIn k l1 ++ partnersIn k l2.
Proof. apply flat_map_app. Qed.

Lemma accumulate_snoc (g : Globals) (ps0 : list Particle) (k j : nat)
  (p : Particle) (js : list nat) :
  accumulate g ps0 k p (js ++ [j])
  = applyForce (accumulate g ps0 k p js) (forceOn g ps0 k j).
Proof. unfold accumulate, applyForce. rewrite foldl_app. reflexivity. Qed.

Lemma pairForce_accumulate (g : Globals) (ps0 : list Particle) (i j : nat)
  (p q : Particle) (ks js : list nat) :
  pairForce g (accumulate g ps0 i p ks) (accumulate g ps0 j q js)
  = pairForce g p q.
Proof. reflexivity. Qed.

Lemma coulombBody_applied (g : Globals) (ps0 ps : list Particle)
  (visited : list (nat * nat)) (i j : nat) :
  (i < j)%nat -> (j < length ps0)%nat ->
  forcesApplied g ps0 visited ps ->
  forcesApplied g ps0 (visited ++ [(i, j)]) (coulombBody g i j ps).
Proof.
  intros Hij Hj [Hlen Hinv].
  destruct (lookup_lt_is_Some_2 ps0 i) as [p1 H1]; [lia|].
  destruct (lookup_lt_is_Some_2 ps0 j) as [p2 H2]; [lia|].
  unfold coulombBody. rewrite (Hinv i p1 H1), (Hinv j p2 H2).
  rewrite pairForce_accumulate. cbv zeta.
  assert (Hf1 : forceOn g ps0 i j = pairForce g p1 p2).
  { unfold forceOn. rewrite H1, H2.
    rewrite (proj2 (Nat.ltb_lt i j) Hij). reflexivity. }
  assert (Hf2 : forceOn g ps0 j i = P5.mult (pairForce g p1 p2) (-1)).
  { unfold forceOn. rewrite H1, H2.
    rewrite (proj2 (Nat.ltb_ge j i)) by lia. reflexivity. }
  split; [rewrite !length_alter; exact Hlen|].
  intros k p Hk. rewrite partnersIn_app. simpl.
  destruct (Nat.eqb_spec i k) as [<- | Hik].
  - rewrite list_lookup_alter_ne by lia.
    rewrite list_lookup_alter_eq, (Hinv i p Hk). simpl.
    rewrite accumulate_snoc, Hf1. reflexivity.
  - destruct (Nat.eqb_spec j k) as [<- | Hjk].
    + rewrite list_lookup_alter_eq, list_lookup_alter_ne by lia.
      rewrite (Hinv j p Hk). simpl.
      rewrite accumulate_snoc, Hf2. reflexivity.
    + rewrite !list_lookup_alter_ne by lia.
      rewrite app_nil_r. apply Hinv. exact Hk.
Qed.

Lemma inner_loop_applied (g : Globals) (ps0 : list Particle) (i : nat)
  (js : list nat) :
  Forall (fun j => (i < j < length ps0)%nat) js ->
  forall (visited : list (nat * nat)) (ps : list Particle),
    forcesApplied g ps0 visited ps ->
    forcesApplied g ps0 (visited ++ map (pair i) js)
                  (foldl (fun ps j => coulombBody g i j ps) ps js).
Proof.
  induction 1 as [|j js Hj _ IH]; intros visited ps Hinv; simpl.
  - rewrite app_nil_r. exact Hinv.
  - replace (visited ++ (i, j) :: map (pair i) js)
      with ((visited ++ [(i, j)]) ++ map (pair i) js)
      by (rewrite <- app_assoc; reflexivity).
    apply IH. apply coulombBody_applied; [lia | lia | exact Hinv].
Qed.

Lemma seq_between (a m : nat) (P : nat -> Prop) :
  (forall j, (a <= j < a + m)%nat -> P j) -> Forall P (seq a m).
Proof.
  intros H. apply List.Forall_forall. intros j Hj.
  apply in_seq in Hj. apply H. exact Hj.
Qed.

Lemma outer_loop_applied (g : Globals) (ps0 : list Particle) (rows : list nat) :
  forall (visited : list (nat * nat)) (ps : list Particle),
    forcesApplied g ps0 visited ps ->
    forcesApplied g ps0
      (visited ++ flat_map (fun i => map (pair i)
                              (seq (i + 1) (length ps0 - (i + 1)))) rows)
      (foldl (fun ps i =>
                foldl (fun ps j => coulombBody g i j ps) ps
                      (seq (i + 1) (length ps - (i + 1))))
             ps rows).
Proof.
  induction rows as [|i rows IH]; intros visited ps Hinv; simpl.
  - rewrite app_nil_r. exact Hinv.
  - rewrite app_assoc. apply IH.
    rewrite (proj1 Hinv). apply inner_loop_applied; [|exact Hinv].
    apply seq_between. intros j Hj. lia.
Qed.

Lemma forcesApplied_start (g : Globals) (ps0 : list Particle) :
  forcesApplied g ps0 [] ps0.
Proof.
  split; [reflexivity|]. intros k p Hk. rewrite Hk.
  destruct p. reflexivity.
Qed.

Lemma applyCoulombForces_applied (g : Globals) (ps0 : list Particle) :
  forcesApplied g ps0 (allPairs (length ps0)) (applyCoulombForces g ps0).
Proof.
  unfold applyCoulombForces, allPairs.
  apply (outer_loop_applied g ps0 (seq 0 (length ps0)) [] ps0).
  apply forcesApplied_start.
Qed.

(** The partners of [k] among the pairs headed by another index [i]. *)
Lemma partnersIn_row_other (k i a m : nat) :
  i <> k ->
  partnersIn k (map (pair i) (seq a m))
  = if ((a <=? k) && (k <? a + m))%nat then [i] else [].
Proof.
  intros Hik. revert a. induction m as [|m IH]; intros a.
  - cbn [seq map partnersIn flat_map].
    destruct (Nat.leb_spec a k), (Nat.ltb_spec k (a + 0));
      try reflexivity; lia.
  - cbn [seq map]. unfold partnersIn in *. cbn [flat_map fst snd].
    rewrite IH. rewrite (proj2 (Nat.eqb_neq i k) Hik).
    destruct (Nat.eqb_spec a k), (Nat.leb_spec (S a) k),
      (Nat.ltb_spec k (S a + m)), (Nat.leb_spec a k),
      (Nat.ltb_spec k (a + S m)); try reflexivity; lia.
Qed.

Lemma partnersIn_row_own (k : nat) (js : list nat) :
  partnersIn k (map (pair k) js) = js.
Proof.
  induction js as [|j js IH]; simpl; [reflexivity|].
  rewrite Nat.eqb_refl. simpl. f_equal. exact IH.
Qed.

Lemma partnersIn_flat_map (k : nat) (f : nat -> list (nat * nat))
  (rows : list nat) :
  partnersIn k (flat_map f rows) = flat_map (fun i => partnersIn k (f i)) rows.
Proof.
  induction rows as [|i rows IH]; simpl; [reflexivity|].
  rewrite partnersIn_app, IH. reflexivity.
Qed.

Lemma flat_map_singletons (h : nat -> list nat) (l : list nat) :
  Forall (fun i => h i = [i]) l -> flat_map h l = l.
Proof.
  induction 1 as [|i l Hi _ IH]; simpl; [reflexivity|].
  rewrite Hi, IH. reflexivity.
Qed.

Lemma flat_map_empties (h : nat -> list nat) (l : list nat) :
  Forall (fun i => h i = []) l -> flat_map h l = [].
Proof.
  induction 1 as [|i l Hi _ IH]; simpl; [reflexivity|].
  rewrite Hi, IH. reflexivity.
Qed.

Lemma seq_split_at (n k : nat) :
  (k < n)%nat -> seq 0 n = seq 0 k ++ k :: seq (S k) (n - S k).
Proof.
  intros Hk. replace n with (k + S (n - S k))%nat at 1 by lia.
  rewrite seq_app. reflexivity.
Qed.

Lemma partnersIn_allPairs (n k : nat) :
  (k < n)%nat -> partnersIn k (allPairs n) = partners n k.
Proof.
  intros Hk. unfold allPairs, partners.
  rewrite partnersIn_flat_map, (seq_split_at n k Hk), flat_map_app.
  cbn [flat_map].
  rewrite partnersIn_row_own.
  rewrite (flat_map_singletons _ (seq 0 k)).
  - rewrite (flat_map_empties _ (seq (S k) (n - S k))).
    + rewrite app_nil_r. reflexivity.
    + apply seq_between. intros i Hi.
      rewrite partnersIn_row_other by lia.
      destruct (Nat.leb_spec (i + 1) k); [lia | reflexivity].
  - apply seq_between. intros i Hi.
    rewrite partnersIn_row_other by lia.
    destruct (Nat.leb_spec (i + 1) k), (Nat.ltb_spec k (i + 1 + (n - (i + 1))));
      try reflexivity; lia.
Qed.

Lemma applyCoulombForces_lookup (g : Globals) (particles : list Particle)
  (k : nat) (p : Particle) :
  particles !! k = Some p ->
  applyCoulombForces g particles !! k
  = Some (accumulate g particles k p (partners (length particles) k)).
Proof.
  intros Hk.
  rewrite <- partnersIn_allPairs by (apply lookup_lt_Some with p; exact Hk).
  apply (applyCoulombForces_applied g particles). exact Hk.
Qed.

Lemma mult_minus_one (v : P5.Vector) : P5.mult v (-1) = opposite v.
Proof. unfold P5.mult, opposite. apply vector_eq; ring. Qed.

Lemma opposite_involutive (v : P5.Vector) : opposite (opposite v) = v.
Proof. destruct v. unfold opposite. simpl. apply vector_eq; ring. Qed.

Lemma forceOn_opposite (g : Globals) (particles : list Particle) (i j : nat)
  (pi pj : Particle) :
  i <> j -> particles !! i = Some pi -> particles !! j = Some pj ->
  forceOn g particles j i = opposite (forceOn g particles i j).
Proof.
  intros Hij Hi Hj. unfold forceOn. rewrite Hi, Hj.
  destruct (Nat.ltb_spec i j) as [Hlt | Hge].
  - rewrite (proj2 (Nat.ltb_ge j i)) by lia. apply mult_minus_one.
  - rewrite (proj2 (Nat.ltb_lt j i)) by lia.
    rewrite mult_minus_one, opposite_involutive. reflexivity.
Qed.

Lemma In_partners (n i j : nat) :
  i <> j -> (j < n)%nat -> In j (partners n i).
Proof.
  intros Hij Hj. unfold partners. apply in_or_app.
  destruct (Nat.lt_ge_cases j i) as [Hlt | Hge].
  - left. apply in_seq. lia.
  - right. apply in_seq. lia.
Qed.

(** C1: for distinct particles [i] and [j], the force handed to [j] on
    account of [i] is the negation of the force handed to [i] on account of
    [j] (the higher index receives [force.mult(-1)] of the one [force]
    computed for the pair), and these are the forces the engine accumulates:
    after the pass each of the two particles has had [applyForce] called
    with its [forceOn] for every other particle, the other one included. *)
Theorem coulomb_forces_equal_and_opposite (g : Globals)
  (particles : list Particle) (i j : nat) (pi pj : Particle) :
  i <> j -> particles !! i = Some pi -> particles !! j = Some pj ->
  forceOn g particles j i = opposite (forceOn g particles i j)
  /\ (exists pl ph,
         particles !! Nat.min i j = Some pl
         /\ particles !! Nat.max i j = Some ph
         /\ forceOn g particles (Nat.min i j) (Nat.max i j)
            = pairForce g pl ph
         /\ forceOn g particles (Nat.max i j) (Nat.min i j)
            = P5.mult (pairForce g pl ph) (-1))
  /\ applyCoulombForces g particles !! i
     = Some (accumulate g particles i pi (partners (length particles) i))
  /\ applyCoulombForces g particles !! j
     = Some (accumulate g particles j pj (partners (length particles) j))
  /\ In j (partners (length particles) i)
  /\ In i (partners (length particles) j).
Proof.
  intros Hij Hi Hj.
  pose proof (lookup_lt_Some _ _ _ Hi) as Hilen.
  pose proof (lookup_lt_Some _ _ _ Hj) as Hjlen.
  split; [apply forceOn_opposite with pi pj; assumption|].
  split.
  - destruct (Nat.lt_ge_cases i j) as [Hlt | Hge].
    + exists pi, pj. rewrite Nat.min_l, Nat.max_r by lia.
      unfold forceOn. rewrite Hi, Hj.
      rewrite (proj2 (Nat.ltb_lt i j)) by lia.
      rewrite (proj2 (Nat.ltb_ge j i)) by lia. repeat split; assumption.
    + exists pj, pi. rewrite Nat.min_r, Nat.max_l by lia.
      unfold forceOn. rewrite Hi, Hj.
      rewrite (proj2 (Nat.ltb_lt j i)) by lia.
      rewrite (proj2 (Nat.ltb_ge i j)) by lia. repeat split; assumption.
  - split; [apply applyCoulombForces_lookup; exact Hi|].
    split; [apply applyCoulombForces_lookup; exact Hj|].
    split; apply In_partners; auto.
Qed.

Lemma coulomb_forces_equal_and_opposite_witness :
  0%nat <> 1%nat
  /\ dipole !! 0%nat = Some (newParticle 100 100 1)
  /\ dipole !! 1%nat = Some (newParticle 200 100 (-1))
  /\ forceOn frictionless dipole 1 0
     = opposite (forceOn frictionless dipole 0 1).
Proof.
  assert (H01 : 0%nat <> 1%nat) by lia.
  assert (H0 : dipole !! 0%nat = Some (newParticle 100 100 1))
    by reflexivity.
  assert (H1 : dipole !! 1%nat = Some (newParticle 200 100 (-1)))
    by reflexivity.
  repeat split; try assumption.
  apply (coulomb_forces_equal_and_opposite frictionless dipole 0 1
           (newParticle 100 100 1) (newParticle 200 100 (-1)) H01 H0 H1).
Defined.

(** *** Two particles at the same place *)

Lemma div_zero_vector (n : R) :
  P5.div (P5.createVector 0 0) n = P5.createVector 0 0.
Proof.
  unfold P5.div. destruct (Reqb n 0); [reflexivity|].
  simpl. apply vector_eq; unfold Rdiv; ring.
Qed.

Lemma mult_zero_vector (n : R) :
  P5.mult (P5.createVector 0 0) n = P5.createVector 0 0.
Proof. unfold P5.mult. simpl. apply vector_eq; ring. Qed.

Lemma add_zero_vector (v : P5.Vector) :
  P5.add v (P5.createVector 0 0) = v.
Proof. destruct v. unfold P5.add. simpl. apply vector_eq; ring. Qed.

Lemma applyForce_zero (p : Particle) :
  applyForce p (P5.createVector 0 0) = p.
Proof.
  unfold applyForce. rewrite div_zero_vector, add_zero_vector.
  destruct p. reflexivity.
Qed.

Lemma pairForce_coincident (g : Globals) (p1 p2 : Particle) :
  pos p1 = pos p2 -> 0 < minDistance g ->
  pairForce g p1 p2
  = P5.mult (P5.div (P5.createVector 0 0) (minDistance g))
            (kCoulomb g * charge p1 * charge p2
             / (minDistance g * minDistance g)).
Proof.
  intros Hpos Hmin. unfold pairForce. rewrite Hpos.
  unfold P5.sub, P5.mag, P5.magSq. simpl.
  replace (P5.x (pos p2) - P5.x (pos p2)) with 0 by ring.
  replace (P5.y (pos p2) - P5.y (pos p2)) with 0 by ring.
  rewrite sqrt_zero_sum.
  rewrite (proj2 (Rltb_true 0 (minDistance g)) Hmin). reflexivity.
Qed.

(** C2, as stated, fails: for two charges [+1] at the same point, with the
    default parameters, the force vector has magnitude 0, not
    [|800 * 1 * 1| / 8^2]. *)
Lemma coincident_force_not_coulomb_value :
  let p := newParticle 100 100 1 in
  P5.mag (forceOn defaultGlobals [p; p] 0 1)
  <> Rabs (kCoulomb defaultGlobals * charge p * charge p)
     / (minDistance defaultGlobals * minDistance defaultGlobals).
Proof.
  cbv zeta. unfold forceOn. simpl.
  rewrite pairForce_coincident by (simpl; try reflexivity; lra).
  rewrite div_zero_vector, mult_zero_vector.
  unfold P5.mag, P5.magSq. simpl. rewrite sqrt_zero_sum.
  replace (800 * 1 * 1) with 800 by ring.
  rewrite Rabs_pos_eq by lra. lra.
Qed.

Lemma pairForce_locals (g : Globals) (p1 p2 : Particle) :
  pairForce g p1 p2 = P5.mult (rHat g p1 p2) (forceMag g p1 p2).
Proof. reflexivity. Qed.

Lemma clampedDistance_coincident (g : Globals) (p1 p2 : Particle) :
  pos p1 = pos p2 -> 0 < minDistance g ->
  clampedDistance g p1 p2 = minDistance g.
Proof.
  intros Hpos Hmin. unfold clampedDistance. rewrite Hpos.
  unfold P5.sub, P5.mag, P5.magSq. simpl.
  replace (P5.x (pos p2) - P5.x (pos p2)) with 0 by ring.
  replace (P5.y (pos p2) - P5.y (pos p2)) with 0 by ring.
  rewrite sqrt_zero_sum.
  apply Rltb_true in Hmin. rewrite Hmin. reflexivity.
Qed.

(** C2, amended: for two particles at the same place, with a positive
    [minDistance]: the engine's [force] is [rHat * forceMag] for every
    pair, with [rHat = rVec / r] and [forceMag = k * q1 * q2 / r^2] for the
    clamped [r]; here the clamp raises [r] from 0 to [minDistance], so the
    divisors [r] and [r * r] are not zero, [rHat] is the quotient
    [(0 / minDistance, 0 / minDistance)] and [forceMag] is
    [k * q1 * q2 / minDistance^2]; since the displacement is zero the force
    vector and its negation are the zero vector, of magnitude 0, and the
    pass leaves both particles as they were. *)
Theorem coincident_particles_zero_force (g : Globals) (p1 p2 : Particle) :
  pos p1 = pos p2 -> 0 < minDistance g ->
  (forall q1 q2 : Particle,
      pairForce g q1 q2 = P5.mult (rHat g q1 q2) (forceMag g q1 q2)
      /\ rHat g q1 q2
         = P5.div (P5.sub (pos q1) (pos q2)) (clampedDistance g q1 q2)
      /\ forceMag g q1 q2
         = kCoulomb g * charge q1 * charge q2
           / (clampedDistance g q1 q2 * clampedDistance g q1 q2))
  /\ P5.mag (P5.sub (pos p1) (pos p2)) = 0
  /\ clampedDistance g p1 p2 = minDistance g
  /\ clampedDistance g p1 p2 <> 0
  /\ clampedDistance g p1 p2 * clampedDistance g p1 p2 <> 0
  /\ rHat g p1 p2
     = P5.createVector (0 / minDistance g) (0 / minDistance g)
  /\ forceMag g p1 p2
     = kCoulomb g * charge p1 * charge p2
       / (minDistance g * minDistance g)
  /\ pairForce g p1 p2
     = P5.mult (P5.div (P5.createVector 0 0) (minDistance g))
               (kCoulomb g * charge p1 * charge p2
                / (minDistance g * minDistance g))
  /\ minDistance g <> 0
  /\ minDistance g * minDistance g <> 0
  /\ pairForce g p1 p2 = P5.createVector 0 0
  /\ P5.mult (pairForce g p1 p2) (-1) = P5.createVector 0 0
  /\ P5.mag (pairForce g p1 p2) = 0
  /\ applyCoulombForces g [p1; p2] = [p1; p2].
Proof.
  intros Hpos Hmin.
  pose proof (pairForce_coincident g p1 p2 Hpos Hmin) as Hforce.
  pose proof (clampedDistance_coincident g p1 p2 Hpos Hmin) as Hr.
  assert (Hzero : pairForce g p1 p2 = P5.createVector 0 0).
  { rewrite Hforce, div_zero_vector, mult_zero_vector. reflexivity. }
  assert (Hsub : P5.sub (pos p1) (pos p2) = P5.createVector 0 0).
  { rewrite Hpos. unfold P5.sub. apply vector_eq; ring. }
  split; [intros q1 q2; repeat split|].
  split; [rewrite Hsub; unfold P5.mag, P5.magSq; simpl; apply sqrt_zero_sum|].
  split; [exact Hr|].
  split; [rewrite Hr; lra|].
  split; [rewrite Hr; nra|].
  split.
  { unfold rHat. rewrite Hr, Hsub. unfold P5.div.
    rewrite (proj2 (Reqb_false (minDistance g) 0)) by lra. reflexivity. }
  split; [unfold forceMag; cbv zeta; rewrite Hr; reflexivity|].
  split; [exact Hforce|].
  split; [lra|]. split; [nra|]. split; [exact Hzero|].
  split; [rewrite Hzero; apply mult_zero_vector|].
  split.
  - rewrite Hzero. unfold P5.mag, P5.magSq. simpl. apply sqrt_zero_sum.
  - unfold applyCoulombForces. simpl. unfold coulombBody. simpl.
    rewrite Hzero, mult_zero_vector, !applyForce_zero. reflexivity.
Qed.

Lemma coincident_particles_zero_force_witness :
  pos (newParticle 100 100 1) = pos (newParticle 100 100 (-1))
  /\ 0 < minDistance defaultGlobals
  /\ applyCoulombForces defaultGlobals
       [newParticle 100 100 1; newParticle 100 100 (-1)]
     = [newParticle 100 100 1; newParticle 100 100 (-1)].
Proof.
  assert (Hpos : pos (newParticle 100 100 1) = pos (newParticle 100 100 (-1)))
    by reflexivity.
  assert (Hmin : 0 < minDistance defaultGlobals) by (simpl; lra).
  repeat split; try assumption.
  apply (coincident_particles_zero_force defaultGlobals
           (newParticle 100 100 1) (newParticle 100 100 (-1)) Hpos Hmin).
Defined.

(** *** The two-particle scenario *)

Lemma lookup_map {A B : Type} (f : A -> B) (l : list A) (i : nat) :
  map f l !! i = f <$> (l !! i).
Proof.
  revert i. induction l as [|a l IH]; intros [|i]; simpl; try reflexivity.
  apply IH.
Qed.

Lemma dipole_force :
  pairForce frictionless (newParticle 100 100 1) (newParticle 200 100 (-1))
  = P5.createVector 0.08 0.
Proof.
  unfold pairForce, P5.sub, P5.mag, P5.magSq. simpl.
  replace ((100 - 200) * (100 - 200) + (100 - 100) * (100 - 100))
    with (100 * 100) by lra.
  rewrite sqrt_square by lra.
  rewrite (proj2 (Rltb_false 100 8)) by lra.
  unfold P5.div. rewrite (proj2 (Reqb_false 100 0)) by lra.
  unfold P5.mult. simpl. apply vector_eq; lra.
Qed.

Lemma dipole_after_forces :
  applyCoulombForces frictionless dipole !! 0%nat
  = Some (set_acc (newParticle 100 100 1) (P5.createVector 0.08 0)).
Proof.
  rewrite (applyCoulombForces_lookup frictionless dipole 0
             (newParticle 100 100 1)) by reflexivity.
  f_equal. unfold accumulate, partners, forceOn. simpl.
  rewrite dipole_force. f_equal.
  unfold P5.div. rewrite (proj2 (Reqb_false 1 0)) by lra.
  unfold P5.add. simpl. apply vector_eq; lra.
Qed.

(** C8: in the scenario (charge [+1] at [(100, 100)], charge [-1] at
    [(200, 100)], [kCoulomb = 800], [minDistance = 8], friction 0) the
    force pass leaves the positive particle with acceleration [(0.08, 0)]:
    magnitude [800 / 100^2 = 0.08], in the direction of [(200, 100)]; after
    the tick its velocity is [(0.08, 0)] and its accumulator is reset. *)
Theorem dipole_first_tick :
  exists p q,
    applyCoulombForces frictionless dipole !! 0%nat = Some p
    /\ acc p = P5.createVector 0.08 0
    /\ P5.mag (acc p) = 800 / (100 * 100)
    /\ acc p = P5.mult (P5.sub (P5.createVector 200 100) (pos p))
                       (0.08 / 100)
    /\ tick frictionless dipole !! 0%nat = Some q
    /\ vel q = P5.createVector 0.08 0
    /\ pos q = P5.createVector 100.08 100
    /\ acc q = P5.createVector 0 0.
Proof.
  exists (set_acc (newParticle 100 100 1) (P5.createVector 0.08 0)).
  exists (update frictionless
            (set_acc (newParticle 100 100 1) (P5.createVector 0.08 0))).
  split; [exact dipole_after_forces|].
  split; [reflexivity|].
  split.
  { unfold P5.mag, P5.magSq. simpl.
    replace (0.08 * 0.08 + 0 * 0) with (0.08 * 0.08) by lra.
    rewrite sqrt_square by lra. lra. }
  split.
  { unfold P5.mult, P5.sub. simpl. apply vector_eq; lra. }
  split.
  { unfold tick. rewrite lookup_map, dipole_after_forces. reflexivity. }
  rewrite update_moved, handleEdges_reflectStep.
  unfold reflectStep, reflectAxis, canvasWidth, canvasHeight. simpl.
  rewrite !(proj2 (Rltb_false _ _)) by lra. simpl.
  repeat split; try reflexivity; apply vector_eq; lra.
Qed.

(** * Further properties of the sketch *)

(** ** Force pass: what it leaves alone *)

Lemma applyCoulombForces_length (g : Globals) (particles : list Particle) :
  length (applyCoulombForces g particles) = length particles.
Proof. apply (applyCoulombForces_applied g particles). Qed.

Lemma applyCoulombForces_map (g : Globals) (particles : list Particle)
  {A : Type} (f : Particle -> A) :
  (forall p v, f (set_acc p v) = f p) ->
  map f (applyCoulombForces g particles) = map f particles.
Proof.
  intros Hf. apply list_eq. intros k. rewrite !lookup_map.
  destruct (particles !! k) as [p|] eqn:Hk.
  - rewrite (applyCoulombForces_lookup g particles k p Hk). simpl.
    unfold accumulate. rewrite Hf. reflexivity.
  - rewrite (lookup_ge_None_2 (applyCoulombForces g particles) k);
      [reflexivity|].
    rewrite applyCoulombForces_length. apply lookup_ge_None. exact Hk.
Qed.

(** X1: the force pass changes accumulators only: the number of particles
    and every position, velocity, charge, mass and radius stay the same. *)
Theorem applyCoulombForces_only_accumulates (g : Globals)
  (particles : list Particle) :
  length (applyCoulombForces g particles) = length particles
  /\ map pos (applyCoulombForces g particles) = map pos particles
  /\ map vel (applyCoulombForces g particles) = map vel particles
  /\ map charge (applyCoulombForces g particles) = map charge particles
  /\ map mass (applyCoulombForces g particles) = map mass particles
  /\ map radius (applyCoulombForces g particles) = map radius particles.
Proof.
  split; [apply applyCoulombForces_length|].
  repeat split; apply applyCoulombForces_map; reflexivity.
Qed.

(** X2: with fewer than two particles there is no pair, and the force pass
    returns the particles unchanged. *)
Theorem applyCoulombForces_no_pair (g : Globals) (particles : list Particle) :
  (length particles < 2)%nat -> applyCoulombForces g particles = particles.
Proof.
  intros Hlen. destruct particles as [|p [|q rest]].
  - reflexivity.
  - reflexivity.
  - simpl in Hlen. lia.
Qed.

Lemma applyCoulombForces_no_pair_witness :
  (length [newParticle 100 100 1] < 2)%nat
  /\ applyCoulombForces defaultGlobals [newParticle 100 100 1]
     = [newParticle 100 100 1].
Proof.
  assert (H : (length [newParticle 100 100 1] < 2)%nat) by (simpl; lia).
  split; [exact H|].
  apply (applyCoulombForces_no_pair defaultGlobals [newParticle 100 100 1] H).
Defined.

(** ** Force pass: the forces cancel *)

Lemma vector_ext (v w : P5.Vector) :
  P5.x v = P5.x w -> P5.y v = P5.y w -> v = w.
Proof. destruct v, w. simpl. intros -> ->. reflexivity. Qed.

Lemma netForce_alter (f : Particle -> Particle) (particles : list Particle) :
  forall (i : nat) (p : Particle),
    particles !! i = Some p ->
    P5.x (netForce (alter f i particles))
    = P5.x (netForce particles) - P5.x (weighted p) + P5.x (weighted (f p))
    /\ P5.y (netForce (alter f i particles))
       = P5.y (netForce particles) - P5.y (weighted p)
         + P5.y (weighted (f p)).
Proof.
  induction particles as [|q qs IH]; intros [|i] p Hp; try discriminate.
  - injection Hp as ->. unfold netForce, weighted. simpl. split; ring.
  - destruct (IH i p Hp) as [Hx Hy].
    change (alter f (S i) (q :: qs)) with (q :: alter f i qs).
    unfold netForce in *. simpl in *. rewrite Hx, Hy. split; ring.
Qed.

Lemma weighted_applyForce (p : Particle) (force : P5.Vector) :
  mass p <> 0 ->
  weighted (applyForce p force) = P5.add (weighted p) force.
Proof.
  intros Hm. unfold weighted, applyForce, P5.div.
  rewrite (proj2 (Reqb_false _ _) Hm).
  apply vector_ext; simpl; field; exact Hm.
Qed.

Lemma coulombBody_massive (g : Globals) (i j : nat)
  (particles : list Particle) :
  Forall massive particles -> Forall massive (coulombBody g i j particles).
Proof.
  intros Hall. unfold coulombBody.
  destruct (particles !! i) as [p1|]; [|exact Hall].
  destruct (particles !! j) as [p2|]; [|exact Hall].
  cbv zeta. apply Forall_alter; [apply Forall_alter; [exact Hall|]|];
    intros p _ Hp; exact Hp.
Qed.

Lemma coulombBody_netForce (g : Globals) (i j : nat)
  (particles : list Particle) :
  i <> j -> Forall massive particles ->
  netForce (coulombBody g i j particles) = netForce particles.
Proof.
  intros Hij Hall. unfold coulombBody.
  destruct (particles !! i) as [p1|] eqn:H1; [|reflexivity].
  destruct (particles !! j) as [p2|] eqn:H2; [|reflexivity].
  cbv zeta. set (force := pairForce g p1 p2).
  assert (Hm1 : massive p1) by (eapply Forall_lookup_1; eassumption).
  assert (Hm2 : massive p2) by (eapply Forall_lookup_1; eassumption).
  destruct (netForce_alter (fun p => applyForce p force) particles i p1 H1)
    as [Hx1 Hy1].
  assert (H2' : alter (fun p => applyForce p force) i particles !! j
                = Some p2)
    by (rewrite list_lookup_alter_ne by exact Hij; exact H2).
  destruct (netForce_alter (fun p => applyForce p (P5.mult force (-1)))
              _ j p2 H2') as [Hx2 Hy2].
  rewrite (weighted_applyForce p1 force Hm1) in Hx1, Hy1.
  rewrite (weighted_applyForce p2 _ Hm2) in Hx2, Hy2.
  apply vector_ext; [rewrite Hx2, Hx1 | rewrite Hy2, Hy1]; simpl; ring.
Qed.

Lemma inner_loop_netForce (g : Globals) (i : nat) (js : list nat) :
  Forall (fun j => i <> j) js ->
  forall particles : list Particle,
    Forall massive particles ->
    netForce (foldl (fun ps j => coulombBody g i j ps) particles js)
    = netForce particles
    /\ Forall massive (foldl (fun ps j => coulombBody g i j ps) particles js).
Proof.
  induction 1 as [|j js Hj _ IH]; intros particles Hall; simpl.
  - split; [reflexivity | exact Hall].
  - destruct (IH (coulombBody g i j particles)
                 (coulombBody_massive g i j particles Hall)) as [Hnet Hm].
    split; [|exact Hm].
    rewrite Hnet. apply coulombBody_netForce; assumption.
Qed.

Lemma outer_loop_netForce (g : Globals) (rows : list nat) :
  forall particles : list Particle,
    Forall massive particles ->
    netForce
      (foldl (fun ps i =>
                foldl (fun ps j => coulombBody g i j ps) ps
                      (seq (i + 1) (length ps - (i + 1))))
             particles rows)
    = netForce particles.
Proof.
  induction rows as [|i rows IH]; intros particles Hall; simpl.
  - reflexivity.
  - destruct (inner_loop_netForce g i
                (seq (i + 1) (length particles - (i + 1)))) with particles
      as [Hnet Hm].
    + apply seq_between. intros j Hj. lia.
    + exact Hall.
    + rewrite IH by exact Hm. exact Hnet.
Qed.

(** X3: the forces of a pass cancel: when no mass is zero, the sum over
    the particles of mass times accumulated acceleration is the same after
    the force pass as before it. *)
Theorem applyCoulombForces_conserves_netForce (g : Globals)
  (particles : list Particle) :
  Forall (fun p => mass p <> 0) particles ->
  netForce (applyCoulombForces g particles) = netForce particles.
Proof.
  intros Hall. unfold applyCoulombForces.
  apply outer_loop_netForce. exact Hall.
Qed.

Lemma applyCoulombForces_conserves_netForce_witness :
  Forall (fun p => mass p <> 0) dipole
  /\ netForce (applyCoulombForces frictionless dipole) = netForce dipole.
Proof.
  assert (H : Forall (fun p => mass p <> 0) dipole).
  { unfold dipole. repeat constructor; simpl; lra. }
  split; [exact H|].
  apply (applyCoulombForces_conserves_netForce frictionless dipole H).
Defined.

(** ** Force pass: the clamp bounds the force *)

Lemma Rabs_square (a : R) : Rabs a * Rabs a = a * a.
Proof. unfold Rabs. destruct (Rcase_abs a); ring. Qed.

Lemma sqrt_le_of_square (a b : R) : 0 <= b -> a <= b * b -> sqrt a <= b.
Proof.
  intros Hb Hab. rewrite <- (sqrt_square b Hb).
  apply sqrt_le_1_alt. exact Hab.
Qed.

(** The clamped distance of a pair is positive and not below either the
    true distance or [minDistance]. *)
Lemma clamped_distance (g : Globals) (r0 : R) :
  0 < minDistance g -> 0 <= r0 ->
  let r := if Rltb r0 (minDistance g) then minDistance g else r0 in
  0 < r /\ r0 <= r /\ minDistance g <= r.
Proof.
  intros Hmin Hr0. cbv zeta.
  destruct (Rltb r0 (minDistance g)) eqn:Hlt;
    [apply Rltb_true in Hlt | apply Rltb_false in Hlt]; lra.
Qed.

Lemma bounded_product (A C p q : R) :
  0 <= A <= 1 -> 0 <= C -> 0 <= p <= q -> A * C * (p * p) <= C * (q * q).
Proof.
  intros HA HC Hpq.
  assert (Hpp : p * p <= q * q) by nra.
  assert (H1 : C * (p * p) <= C * (q * q))
    by (apply Rmult_le_compat_l; lra).
  assert (H0 : 0 <= C * (p * p)) by nra.
  assert (H2 : A * (C * (p * p)) <= 1 * (C * (p * p)))
    by (apply Rmult_le_compat_r; lra).
  lra.
Qed.

(** X4: with a positive [minDistance], the force of a pair is never larger
    than the Coulomb value at distance [minDistance], however close the two
    particles are. *)
Theorem pairForce_bounded (g : Globals) (p1 p2 : Particle) :
  0 < minDistance g ->
  P5.mag (pairForce g p1 p2)
  <= Rabs (kCoulomb g * charge p1 * charge p2)
     / (minDistance g * minDistance g).
Proof.
  intros Hmin. unfold pairForce.
  set (rVec := P5.sub (pos p1) (pos p2)).
  set (K := kCoulomb g * charge p1 * charge p2).
  assert (Hr0 : 0 <= P5.mag rVec) by apply sqrt_pos.
  destruct (clamped_distance g (P5.mag rVec) Hmin Hr0) as (Hr & Hle & Hge).
  set (r := if Rltb (P5.mag rVec) (minDistance g)
            then minDistance g else P5.mag rVec) in *.
  assert (HS : P5.magSq rVec = P5.mag rVec * P5.mag rVec).
  { unfold P5.mag. rewrite sqrt_sqrt; [reflexivity|].
    unfold P5.magSq. nra. }
  unfold P5.div. rewrite (proj2 (Reqb_false r 0)) by lra.
  unfold P5.mag at 1. apply sqrt_le_of_square.
  { apply Rmult_le_pos; [apply Rabs_pos|].
    apply Rlt_le, Rinv_0_lt_compat. nra. }
  assert (Ht : 0 < / r) by (apply Rinv_0_lt_compat; exact Hr).
  assert (Hu : 0 < / minDistance g) by (apply Rinv_0_lt_compat; exact Hmin).
  assert (Htu : / r <= / minDistance g)
    by (apply Rinv_le_contravar; lra).
  assert (Hrt : r * / r = 1) by (apply Rinv_r; lra).
  assert (Hone : P5.mag rVec * / r <= 1).
  { rewrite <- Hrt. apply Rmult_le_compat_r; lra. }
  assert (HA : 0 <= P5.magSq rVec * (/ r * / r) <= 1).
  { rewrite HS. split; [nra|].
    replace (P5.mag rVec * P5.mag rVec * (/ r * / r))
      with ((P5.mag rVec * / r) * (P5.mag rVec * / r)) by ring.
    assert (0 <= P5.mag rVec * / r) by nra. nra. }
  replace (P5.magSq _)
    with (P5.magSq rVec * (/ r * / r) * (K * K)
          * ((/ r * / r) * (/ r * / r))).
  2:{ unfold P5.magSq, P5.mult, Rdiv. simpl.
      rewrite Rinv_mult. ring. }
  replace (Rabs K / (minDistance g * minDistance g)
           * (Rabs K / (minDistance g * minDistance g)))
    with (K * K * ((/ minDistance g * / minDistance g)
                   * (/ minDistance g * / minDistance g))).
  2:{ unfold Rdiv. rewrite Rinv_mult, <- (Rabs_square K). ring. }
  apply bounded_product; [exact HA | nra | split; nra].
Qed.

Lemma pairForce_bounded_witness :
  0 < minDistance defaultGlobals
  /\ P5.mag (pairForce defaultGlobals (newParticle 100 100 1)
                       (newParticle 101 100 1))
     <= Rabs (kCoulomb defaultGlobals * 1 * 1)
        / (minDistance defaultGlobals * minDistance defaultGlobals).
Proof.
  assert (H : 0 < minDistance defaultGlobals) by (simpl; lra).
  split; [exact H|].
  apply (pairForce_bounded defaultGlobals (newParticle 100 100 1)
           (newParticle 101 100 1) H).
Defined.

(** ** Integrator: edges, speed, and what a tick keeps *)

Lemma handleEdges_inCanvas (p : Particle) : inCanvas (pos (handleEdges p)).
Proof.
  rewrite handleEdges_reflectStep.
  destruct (reflectStep_pos_vel p) as [Hx Hy].
  pose proof (reflectAxis_range canvasWidth (P5.x (pos p)) (P5.x (vel p)))
    as Rx.
  pose proof (reflectAxis_range canvasHeight (P5.y (pos p)) (P5.y (vel p)))
    as Ry.
  rewrite <- Hx in Rx. rewrite <- Hy in Ry. simpl in Rx, Ry.
  unfold canvasWidth, canvasHeight in *.
  split; [apply Rx | apply Ry]; lra.
Qed.

Lemma reflectAxis_inside (hi c v : R) :
  0 <= c <= hi -> reflectAxis hi c v = (c, v).
Proof.
  intros Hc. unfold reflectAxis.
  rewrite !(proj2 (Rltb_false _ _)) by lra. reflexivity.
Qed.

Lemma handleEdges_reflectStep_inside (p : Particle) :
  inCanvas (pos p) -> handleEdges p = p.
Proof.
  intros [Hx Hy]. rewrite handleEdges_reflectStep. unfold reflectStep.
  rewrite (reflectAxis_inside _ _ _ Hx), (reflectAxis_inside _ _ _ Hy).
  destruct p as [[px py] [vx vy] a q m r]. reflexivity.
Qed.

(** X5: a particle whose position is inside the canvas, edges included,
    passes through [handleEdges] unchanged: no clamp, no reflection. *)
Theorem handleEdges_inside (p : Particle) :
  inCanvas (pos p) -> handleEdges p = p.
Proof. apply handleEdges_reflectStep_inside. Qed.

Lemma handleEdges_inside_witness :
  inCanvas (pos (newParticle 1000 0 1))
  /\ handleEdges (newParticle 1000 0 1) = newParticle 1000 0 1.
Proof.
  assert (H : inCanvas (pos (newParticle 1000 0 1))).
  { unfold inCanvas, canvasWidth, canvasHeight. simpl. lra. }
  split; [exact H|].
  apply (handleEdges_inside (newParticle 1000 0 1) H).
Defined.

(** X6: [handleEdges] is idempotent: applied to its own result it changes
    nothing, so a reflected velocity is not reflected back. *)
Theorem handleEdges_idempotent (p : Particle) :
  handleEdges (handleEdges p) = handleEdges p.
Proof.
  rewrite handleEdges_reflectStep at 1.
  destruct (handleEdges_inCanvas p) as [Hx Hy]. unfold reflectStep.
  rewrite (reflectAxis_inside _ _ _ Hx), (reflectAxis_inside _ _ _ Hy).
  destruct (handleEdges p) as [[px py] [vx vy] a q m r]. reflexivity.
Qed.

Lemma reflectAxis_square (hi c v : R) :
  snd (reflectAxis hi c v) * snd (reflectAxis hi c v) = v * v.
Proof. unfold reflectAxis. Rltb_cases; simpl; ring. Qed.

Lemma handleEdges_magSq (p : Particle) :
  P5.magSq (vel (handleEdges p)) = P5.magSq (vel p).
Proof.
  rewrite handleEdges_reflectStep.
  destruct (reflectStep_pos_vel p) as [Hx Hy].
  apply (f_equal snd) in Hx, Hy. simpl in Hx, Hy.
  unfold P5.magSq. rewrite Hx, Hy, !reflectAxis_square.
  reflexivity.
Qed.

(** X7: boundary reflection never changes the speed: the velocity has
    the same magnitude after [handleEdges] as before. *)
Theorem handleEdges_keeps_speed (p : Particle) :
  P5.mag (vel (handleEdges p)) = P5.mag (vel p).
Proof. unfold P5.mag. rewrite handleEdges_magSq. reflexivity. Qed.

(** X8: a particle with an empty accumulator leaves [update] with its
    speed multiplied by [|1 - globalFriction|], whether or not it bounced. *)
Theorem update_free_particle_speed (g : Globals) (p : Particle) :
  acc p = P5.createVector 0 0 ->
  P5.mag (vel (update g p)) = Rabs (1 - globalFriction g) * P5.mag (vel p).
Proof.
  intros Hacc. rewrite update_moved. unfold P5.mag.
  rewrite handleEdges_magSq.
  unfold moved, resetStep, moveStep, accelerateStep, dampStep. simpl.
  rewrite Hacc. unfold P5.magSq. simpl.
  set (c := 1 - globalFriction g).
  replace ((P5.x (vel p) * c + 0) * (P5.x (vel p) * c + 0)
           + (P5.y (vel p) * c + 0) * (P5.y (vel p) * c + 0))
    with ((c * c) * (P5.x (vel p) * P5.x (vel p)
                     + P5.y (vel p) * P5.y (vel p))) by ring.
  rewrite sqrt_mult_alt by nra.
  f_equal. apply sqrt_Rsqr_abs.
Qed.

Lemma update_free_particle_speed_witness :
  acc (set_vel (newParticle 100 100 1) (P5.createVector 3 4))
  = P5.createVector 0 0
  /\ P5.mag (vel (update defaultGlobals
                    (set_vel (newParticle 100 100 1) (P5.createVector 3 4))))
     = Rabs (1 - globalFriction defaultGlobals)
       * P5.mag (P5.createVector 3 4).
Proof.
  assert (H : acc (set_vel (newParticle 100 100 1) (P5.createVector 3 4))
              = P5.createVector 0 0) by reflexivity.
  split; [exact H|].
  apply (update_free_particle_speed defaultGlobals
           (set_vel (newParticle 100 100 1) (P5.createVector 3 4)) H).
Defined.

Lemma update_keeps_body (g : Globals) (p : Particle) :
  charge (update g p) = charge p
  /\ mass (update g p) = mass p
  /\ radius (update g p) = radius p
  /\ acc (update g p) = P5.createVector 0 0.
Proof.
  rewrite update_moved, handleEdges_reflectStep. unfold reflectStep.
  destruct (reflectAxis canvasWidth _ _), (reflectAxis canvasHeight _ _).
  repeat split.
Qed.

Lemma map_map_eq {A B C : Type} (f : B -> C) (h : A -> B) (k : A -> C)
  (l : list A) :
  (forall a, f (h a) = k a) -> map f (map h l) = map k l.
Proof.
  intros H. induction l as [|a l IH]; simpl; [reflexivity|].
  rewrite H, IH. reflexivity.
Qed.

(** X9: a tick keeps the number of particles and every charge, mass and
    radius, and leaves every accumulator at zero, so no force carries over
    into the next frame. *)
Theorem tick_keeps_bodies (g : Globals) (particles : list Particle) :
  length (tick g particles) = length particles
  /\ map charge (tick g particles) = map charge particles
  /\ map mass (tick g particles) = map mass particles
  /\ map radius (tick g particles) = map radius particles
  /\ Forall (fun p => acc p = P5.createVector 0 0) (tick g particles).
Proof.
  unfold tick.
  split; [rewrite length_map; apply applyCoulombForces_length|].
  split.
  { rewrite <- (applyCoulombForces_map g particles charge) by reflexivity.
    apply map_map_eq. intros. apply update_keeps_body. }
  split.
  { rewrite <- (applyCoulombForces_map g particles mass) by reflexivity.
    apply map_map_eq. intros. apply update_keeps_body. }
  split.
  { rewrite <- (applyCoulombForces_map g particles radius) by reflexivity.
    apply map_map_eq. intros. apply update_keeps_body. }
  induction (applyCoulombForces g particles) as [|p ps IH]; simpl.
  - constructor.
  - constructor; [apply update_keeps_body | exact IH].
Qed.

(** ** Field sampler: superposition and bound *)

Lemma field_as_sum (g : Globals) (particles : list Particle) (x y : R) :
  computeElectricFieldAtPoint g particles x y
  = vsum (map (contribution g x y)
              (List.filter (contributes g x y) particles)).
Proof.
  unfold computeElectricFieldAtPoint. rewrite foldl_fieldStep. cbv zeta.
  simpl fst. simpl snd.
  destruct (vsum _) as [tx ty]. simpl. apply vector_eq; ring.
Qed.

Lemma vsum_app (l1 l2 : list P5.Vector) :
  vsum (l1 ++ l2) = P5.add (vsum l1) (vsum l2).
Proof.
  induction l1 as [|v l1 IH]; simpl.
  - destruct (vsum l2). unfold P5.add. simpl. apply vector_eq; ring.
  - rewrite IH. unfold P5.add. simpl. apply vector_eq; ring.
Qed.

(** X10: superposition: the field of two groups of particles taken
    together is the sum of the fields of each group, and the field of no
    particles is zero. *)
Theorem field_superposition (g : Globals) (group1 group2 : list Particle)
  (x y : R) :
  computeElectricFieldAtPoint g (group1 ++ group2) x y
  = P5.add (computeElectricFieldAtPoint g group1 x y)
           (computeElectricFieldAtPoint g group2 x y)
  /\ computeElectricFieldAtPoint g [] x y = P5.createVector 0 0.
Proof.
  split; [|reflexivity].
  rewrite !field_as_sum, List.filter_app, map_app. apply vsum_app.
Qed.

Lemma field_skips_close (g : Globals) (before after : list Particle)
  (p : Particle) (x y : R) :
  distSq x y p < minDistance g * minDistance g ->
  computeElectricFieldAtPoint g (before ++ p :: after) x y
  = computeElectricFieldAtPoint g (before ++ after) x y.
Proof.
  intros Hnear. rewrite !field_as_sum, !List.filter_app.
  cbn [List.filter]. unfold contributes at 2.
  rewrite (proj2 (Rltb_true _ _) Hnear). reflexivity.
Qed.

(** X11: the sampler passes over the particle whose distance to the query
    point is below [minDistance]: the field is what the other particles
    alone produce. *)
Theorem field_ignores_close_particle (g : Globals)
  (before after : list Particle) (p : Particle) (x y : R) :
  distSq x y p < minDistance g * minDistance g ->
  computeElectricFieldAtPoint g (before ++ p :: after) x y
  = computeElectricFieldAtPoint g (before ++ after) x y.
Proof. apply field_skips_close. Qed.

Lemma field_ignores_close_particle_witness :
  distSq 106 100 (newParticle 100 100 1)
  < minDistance defaultGlobals * minDistance defaultGlobals
  /\ computeElectricFieldAtPoint defaultGlobals
       ([] ++ newParticle 100 100 1 :: [newParticle 200 100 (-1)]) 106 100
     = computeElectricFieldAtPoint defaultGlobals
         ([] ++ [newParticle 200 100 (-1)]) 106 100.
Proof.
  assert (H : distSq 106 100 (newParticle 100 100 1)
              < minDistance defaultGlobals * minDistance defaultGlobals)
    by (unfold distSq; simpl; lra).
  split; [exact H|].
  apply (field_ignores_close_particle defaultGlobals []
           [newParticle 200 100 (-1)] (newParticle 100 100 1) 106 100 H).
Defined.

Lemma Rabs_le_sqrt (a s : R) : a * a <= s -> Rabs a <= sqrt s.
Proof.
  intros Has. rewrite <- (sqrt_Rsqr_abs a). apply sqrt_le_1_alt. exact Has.
Qed.

(** One component of one contribution. *)
Lemma component_bounded (a K r2 m2 : R) :
  0 < m2 -> m2 <= r2 -> a * a <= r2 ->
  Rabs (a / sqrt r2 * (K / r2)) <= Rabs K / m2.
Proof.
  intros Hm Hr Ha.
  assert (Hs : 0 < sqrt r2) by (apply sqrt_lt_R0; lra).
  assert (Habs : Rabs a <= sqrt r2) by (apply Rabs_le_sqrt; exact Ha).
  unfold Rdiv. rewrite !Rabs_mult, !Rabs_inv.
  rewrite (Rabs_pos_eq (sqrt r2)) by lra.
  rewrite (Rabs_pos_eq r2) by lra.
  assert (H1 : 0 <= Rabs a * / sqrt r2 <= 1).
  { assert (Hi : 0 < / sqrt r2) by (apply Rinv_0_lt_compat; exact Hs).
    pose proof (Rabs_pos a) as Hp. split; [nra|].
    rewrite <- (Rinv_r (sqrt r2)) by lra.
    apply Rmult_le_compat_r; lra. }
  assert (H2 : 0 <= Rabs K * / r2 <= Rabs K * / m2).
  { assert (Hi : 0 < / r2) by (apply Rinv_0_lt_compat; lra).
    assert (Hle : / r2 <= / m2) by (apply Rinv_le_contravar; lra).
    pose proof (Rabs_pos K) as Hp. split; [nra|].
    apply Rmult_le_compat_l; lra. }
  nra.
Qed.

Lemma contribution_bounded (g : Globals) (x y : R) (p : Particle) :
  0 < minDistance g -> contributes g x y p = true ->
  Rabs (P5.x (contribution g x y p))
  <= Rabs (kCoulomb g * charge p) / (minDistance g * minDistance g)
  /\ Rabs (P5.y (contribution g x y p))
     <= Rabs (kCoulomb g * charge p) / (minDistance g * minDistance g).
Proof.
  intros Hmin Hc. unfold contributes in Hc.
  apply negb_true_iff, Rltb_false in Hc.
  unfold contribution. cbv zeta. simpl. unfold distSq in *.
  pose proof (Rle_0_sqr (x - P5.x (pos p))) as Hsx.
  pose proof (Rle_0_sqr (y - P5.y (pos p))) as Hsy.
  unfold Rsqr in Hsx, Hsy.
  split; apply component_bounded; try exact Hc; nra.
Qed.

Lemma fieldBound_nonneg (g : Globals) (p : Particle) :
  0 < minDistance g ->
  0 <= Rabs (kCoulomb g * charge p) / (minDistance g * minDistance g).
Proof.
  intros Hmin. apply Rmult_le_pos; [apply Rabs_pos|].
  apply Rlt_le, Rinv_0_lt_compat. nra.
Qed.

(** X12: with a positive [minDistance], each component of the sampled
    field is bounded, at every query point, by the sum over the particles
    of [|kCoulomb * charge| / minDistance^2]. *)
Theorem field_bounded (g : Globals) (particles : list Particle) (x y : R) :
  0 < minDistance g ->
  Rabs (P5.x (computeElectricFieldAtPoint g particles x y))
  <= fieldBound g particles
  /\ Rabs (P5.y (computeElectricFieldAtPoint g particles x y))
     <= fieldBound g particles.
Proof.
  intros Hmin. rewrite field_as_sum. unfold fieldBound.
  induction particles as [|p ps [IHx IHy]]; simpl.
  - rewrite Rabs_R0. split; lra.
  - pose proof (fieldBound_nonneg g p Hmin) as Hp.
    destruct (contributes g x y p) eqn:Hc; simpl.
    + destruct (contribution_bounded g x y p Hmin Hc) as [Hx Hy].
      split; (eapply Rle_trans; [apply Rabs_triang|]);
        apply Rplus_le_compat;
        first [exact Hx | exact Hy | exact IHx | exact IHy].
    + split; [apply Rle_trans with (1 := IHx) | apply Rle_trans with (1 := IHy)];
        lra.
Qed.

Lemma field_bounded_witness :
  0 < minDistance defaultGlobals
  /\ Rabs (P5.x (computeElectricFieldAtPoint defaultGlobals dipole 150 100))
     <= fieldBound defaultGlobals dipole.
Proof.
  assert (H : 0 < minDistance defaultGlobals) by (simpl; lra).
  split; [exact H|].
  apply (field_bounded defaultGlobals dipole 150 100 H).
Defined.

(** ** Streamline tracer: step length *)

(** A step of the tracer moves the point by exactly [streamlineStep]. *)
Lemma advance_distance (E : P5.Vector) (x y : R) :
  Rltb (P5.mag E) 0.01 = false ->
  P5.dist x y (x + P5.x (P5.normalize E) * streamlineStep)
              (y + P5.y (P5.normalize E) * streamlineStep)
  = streamlineStep.
Proof.
  intros Hmag. apply Rltb_false in Hmag.
  assert (Hsq : P5.mag E * P5.mag E = P5.magSq E).
  { unfold P5.mag. apply sqrt_sqrt. unfold P5.magSq. nra. }
  unfold P5.normalize. rewrite (proj2 (Reqb_false (P5.mag E) 0)) by lra.
  unfold P5.dist, P5.mult. simpl.
  set (len := P5.mag E) in *.
  replace ((x + P5.x E * (1 / len) * streamlineStep - x)
           * (x + P5.x E * (1 / len) * streamlineStep - x)
           + (y + P5.y E * (1 / len) * streamlineStep - y)
             * (y + P5.y E * (1 / len) * streamlineStep - y))
    with (streamlineStep * streamlineStep).
  - apply sqrt_square. unfold streamlineStep. lra.
  - unfold P5.magSq in Hsq.
    transitivity (streamlineStep * streamlineStep
                  * ((len * len) * (/ len * / len))).
    + rewrite <- Rinv_mult, Rinv_r by nra. ring.
    + rewrite Hsq. unfold Rdiv. ring.
Qed.

Lemma last_cons_default {A : Type} (pts : list A) :
  forall a d : A, List.last (a :: pts) d = List.last pts a.
Proof.
  induction pts as [|b pts IH]; intros a d; [reflexivity|].
  change (List.last (a :: b :: pts) d) with (List.last (b :: pts) d).
  rewrite (IH b d), (IH b a). reflexivity.
Qed.

Lemma evenlySpaced_snoc (from q : R * R) (pts : list (R * R)) :
  evenlySpaced from (pts ++ [q])
  <-> evenlySpaced from pts
      /\ P5.dist (fst (List.last pts from)) (snd (List.last pts from))
                 (fst q) (snd q) = streamlineStep.
Proof.
  revert from. induction pts as [|a pts IH]; intros from.
  - simpl. tauto.
  - change ((a :: pts) ++ [q]) with (a :: (pts ++ [q])).
    cbn [evenlySpaced]. rewrite IH, last_cons_default. tauto.
Qed.

Lemma traceLoop_evenlySpaced (g : Globals) (particles : list Particle)
  (start : R * R) (n : nat) :
  forall (x y : R) (pts : list (R * R)),
    evenlySpaced start pts -> List.last pts start = (x, y) ->
    evenlySpaced start (traceLoop g particles n x y pts).
Proof.
  induction n as [|n IH]; intros x y pts Hpts Hlast; [exact Hpts|].
  rewrite traceLoop_S. cbv zeta.
  destruct (Rltb _ 0.01) eqn:Hmag; [exact Hpts|].
  assert (Hnext :
            evenlySpaced start
              (pts ++ [(x + P5.x (P5.normalize
                          (computeElectricFieldAtPoint g particles x y))
                        * streamlineStep,
                        y + P5.y (P5.normalize
                          (computeElectricFieldAtPoint g particles x y))
                        * streamlineStep)])).
  { apply evenlySpaced_snoc. split; [exact Hpts|].
    rewrite Hlast. simpl. apply advance_distance. exact Hmag. }
  destruct (outsideCanvas _ _); [exact Hnext|].
  destruct (reachedSink _ _ _); [exact Hnext|].
  apply IH; [exact Hnext | apply last_last].
Qed.

(** X13: the points of a traced line are evenly spaced: the first point is
    exactly [streamlineStep] = 2.2 from the seed and each further point is
    exactly that far from the one before it. *)
Theorem streamline_evenly_spaced (g : Globals) (particles : list Particle)
  (startX startY : R) :
  evenlySpaced (startX, startY) (traceStreamline g particles startX startY)
  /\ streamlineStep = 2.2.
Proof.
  split; [|reflexivity]. unfold traceStreamline.
  apply traceLoop_evenlySpaced; [exact I | reflexivity].
Qed.

(** ** Field lines around the charges *)

Lemma Rleb_false (a b : R) : Rleb a b = false <-> b < a.
Proof.
  unfold Rleb. destruct (Rle_dec a b); split; intros; try easy; lra.
Qed.

Lemma Rleb_Rltb (a b : R) : Rleb a b = negb (Rltb b a).
Proof.
  unfold Rleb, Rltb. destruct (Rle_dec a b), (Rlt_dec b a);
    try reflexivity; lra.
Qed.

(** X14: [drawFieldLines] draws [numLinesPerCharge] = 32 polylines for
    each particle of positive charge and none for the others. *)
Theorem drawFieldLines_count (g : Globals) (particles : list Particle) :
  length (drawFieldLines g particles)
  = (numLinesPerCharge
     * length (List.filter (fun p => Rltb 0 (charge p)) particles))%nat
  /\ numLinesPerCharge = 32%nat.
Proof.
  split; [|reflexivity]. unfold drawFieldLines.
  generalize (seededLine g particles). intros line.
  induction particles as [|p ps IH]; [simpl; lia|].
  cbn [flat_map List.filter]. rewrite length_app, IH, Rleb_Rltb.
  destruct (Rltb 0 (charge p)); cbn [negb length].
  - rewrite length_map, length_seq. lia.
  - lia.
Qed.

Lemma seedPoint_distSq (p : Particle) (angle : R) :
  distSq (fst (seedPoint p angle)) (snd (seedPoint p angle)) p
  = (radius p + 1) * (radius p + 1).
Proof.
  unfold distSq, seedPoint. simpl.
  pose proof (sin2_cos2 angle) as H. unfold Rsqr in H.
  transitivity ((sin angle * sin angle + cos angle * cos angle)
                * ((radius p + 1) * (radius p + 1))); [ring|].
  rewrite H. ring.
Qed.

(** X15: when [radius + 1 < minDistance] in squares (by default 6 against
    8), the field at a seed placed around a particle leaves that particle
    out: the line is started by the other particles alone. *)
Theorem seed_field_excludes_own_charge (g : Globals)
  (before after : list Particle) (p : Particle) (angle : R) :
  (radius p + 1) * (radius p + 1) < minDistance g * minDistance g ->
  computeElectricFieldAtPoint g (before ++ p :: after)
    (fst (seedPoint p angle)) (snd (seedPoint p angle))
  = computeElectricFieldAtPoint g (before ++ after)
      (fst (seedPoint p angle)) (snd (seedPoint p angle)).
Proof.
  intros Hnear. apply field_skips_close.
  rewrite seedPoint_distSq. exact Hnear.
Qed.

Lemma seed_field_excludes_own_charge_witness :
  (radius (newParticle 100 100 1) + 1) * (radius (newParticle 100 100 1) + 1)
  < minDistance defaultGlobals * minDistance defaultGlobals
  /\ computeElectricFieldAtPoint defaultGlobals
       ([] ++ newParticle 100 100 1 :: [newParticle 200 100 (-1)])
       (fst (seedPoint (newParticle 100 100 1) 0))
       (snd (seedPoint (newParticle 100 100 1) 0))
     = computeElectricFieldAtPoint defaultGlobals
         ([] ++ [newParticle 200 100 (-1)])
         (fst (seedPoint (newParticle 100 100 1) 0))
         (snd (seedPoint (newParticle 100 100 1) 0)).
Proof.
  assert (H : (radius (newParticle 100 100 1) + 1)
              * (radius (newParticle 100 100 1) + 1)
              < minDistance defaultGlobals * minDistance defaultGlobals)
    by (simpl; lra).
  split; [exact H|].
  apply (seed_field_excludes_own_charge defaultGlobals []
           [newParticle 200 100 (-1)] (newParticle 100 100 1) 0 H).
Defined.

(** X16: with a single particle and [radius + 1 < minDistance] in squares,
    every polyline [drawFieldLines] draws is empty: a lone charge shows no
    field lines. *)
Theorem lone_charge_draws_no_lines (g : Globals) (p : Particle) :
  (radius p + 1) * (radius p + 1) < minDistance g * minDistance g ->
  Forall (fun path => path = []) (drawFieldLines g [p]).
Proof.
  intros Hnear. unfold drawFieldLines. cbn [flat_map].
  rewrite app_nil_r. destruct (Rleb (charge p) 0); [constructor|].
  induction (seq 0 numLinesPerCharge) as [|n ns IH]; simpl.
  - constructor.
  - constructor; [|exact IH].
    unfold seededLine, traceStreamline. cbv zeta.
    apply traceLoop_zero_field, lone_field_skipped.
    rewrite <- (seedPoint_distSq p (TWO_PI * INR n / INR numLinesPerCharge))
      in Hnear.
    exact Hnear.
Qed.

Lemma lone_charge_draws_no_lines_witness :
  (radius (newParticle 100 100 1) + 1) * (radius (newParticle 100 100 1) + 1)
  < minDistance defaultGlobals * minDistance defaultGlobals
  /\ Forall (fun path => path = [])
            (drawFieldLines defaultGlobals [newParticle 100 100 1]).
Proof.
  assert (H : (radius (newParticle 100 100 1) + 1)
              * (radius (newParticle 100 100 1) + 1)
              < minDistance defaultGlobals * minDistance defaultGlobals)
    by (simpl; lra).
  split; [exact H|].
  apply (lone_charge_draws_no_lines defaultGlobals (newParticle 100 100 1) H).
Defined.

(** ** Particle management: placing, finding, erasing *)

Lemma hit_newParticle (x y q : R) : hit x y (newParticle x y q) = true.
Proof.
  unfold hit, P5.dist. simpl.
  replace ((x - x) * (x - x) + (y - y) * (y - y)) with 0 by ring.
  rewrite sqrt_0. apply Rltb_true. lra.
Qed.

(** X17: erasing at the point where a particle was just placed removes
    that particle and restores the list as it was, whatever else lies under
    the point. *)
Theorem delete_after_add (particles : list Particle) (x y q : R) :
  deleteParticleAt (addParticle particles x y q) x y = particles.
Proof.
  unfold deleteParticleAt, addParticle.
  rewrite length_app, Nat.add_comm. cbn [length Nat.add deleteLoop].
  rewrite list_lookup_middle by reflexivity.
  rewrite hit_newParticle, delete_middle. apply app_nil_r.
Qed.

(** X18: a hit test at the point where a particle was just placed returns
    the particle that was already found there before, if any, and the new
    particle otherwise: older particles shadow newer ones. *)
Theorem get_after_add (particles : list Particle) (x y q : R) :
  getParticleAt (addParticle particles x y q) x y
  = match getParticleAt particles x y with
    | Some p => Some p
    | None => Some (newParticle x y q)
    end.
Proof.
  unfold addParticle. induction particles as [|p ps IH]; simpl.
  - rewrite hit_newParticle. reflexivity.
  - destruct (hit x y p); [reflexivity | exact IH].
Qed.

(** X19: [deleteParticleAt] shortens the list by one exactly when
    [getParticleAt] finds a particle at the point, and keeps its length
    otherwise. *)
Theorem delete_length (particles : list Particle) (x y : R) :
  length (deleteParticleAt particles x y)
  = match getParticleAt particles x y with
    | Some _ => (length particles - 1)%nat
    | None => length particles
    end.
Proof.
  destruct (first_hit_split particles x y)
    as [Hall | (older & p & newer & Heq & Hp & Hold)].
  - rewrite (getParticleAt_none _ _ _ Hall).
    destruct (deleteLoop_scan x y particles [] (List.Forall_nil _))
      as [[_ Hd] | (o & q & n & Hsplit & Hq & _)].
    + rewrite app_nil_r in Hd. unfold deleteParticleAt.
      rewrite Hd. reflexivity.
    + rewrite app_nil_r in Hsplit. rewrite Hsplit in Hall.
      apply Forall_app in Hall as [_ Hall].
      inversion Hall as [|? ? Hmiss _]. unfold misses in Hmiss. congruence.
  - assert (Hget : getParticleAt particles x y = Some p)
      by (rewrite Heq; apply getParticleAt_first; assumption).
    rewrite Hget.
    destruct (deleteLoop_scan x y particles [] (List.Forall_nil _))
      as [[Hall _] | (o & q & n & Hsplit & Hq & Hnew & Hd)].
    + rewrite Heq in Hall. apply Forall_app in Hall as [_ Hall].
      inversion Hall as [|? ? Hmiss _]. unfold misses in Hmiss. congruence.
    + rewrite app_nil_r in Hsplit, Hd. unfold deleteParticleAt.
      rewrite Hd. apply (f_equal length) in Hsplit.
      rewrite length_app in Hsplit. simpl in Hsplit.
      rewrite length_app. lia.
Qed.

(** ** Input layer *)

Lemma getParticleAt_hitIndex (ps : list Particle) (x y : R) :
  getParticleAt ps x y = hitIndex ps x y ≫= (fun i => ps !! i).
Proof.
  induction ps as [|p ps IH]; simpl; [reflexivity|].
  destruct (hit x y p); [reflexivity|].
  rewrite IH. destruct (hitIndex ps x y); reflexivity.
Qed.

Lemma deleteLoop_erasedIndex (ps : list Particle) (x y : R) (n : nat) :
  deleteLoop ps x y n
  = match erasedIndex ps x y n with
    | Some i => delete i ps
    | None => ps
    end.
Proof.
  induction n as [|n IH]; simpl; [reflexivity|].
  destruct (ps !! n) as [p|]; [|reflexivity].
  destruct (hit x y p); [reflexivity | exact IH].
Qed.

Lemma deleteParticleAt_Forall (P : Particle -> Prop) (ps : list Particle)
  (x y : R) :
  Forall P ps -> Forall P (deleteParticleAt ps x y).
Proof.
  intros Hall. unfold deleteParticleAt. rewrite deleteLoop_erasedIndex.
  destruct (erasedIndex ps x y (length ps)); [|exact Hall].
  apply Forall_delete. exact Hall.
Qed.

Lemma deleteParticleAt_nil (x y : R) : deleteParticleAt [] x y = [].
Proof. reflexivity. Qed.

Lemma applyCoulombForces_Forall (g : Globals) (P : Particle -> Prop)
  (ps : list Particle) :
  (forall p v, P p -> P (set_acc p v)) ->
  Forall P ps -> Forall P (applyCoulombForces g ps).
Proof.
  intros Hset Hall. apply Forall_lookup. intros k q Hq.
  assert (Hk : (k < length ps)%nat).
  { rewrite <- (applyCoulombForces_length g ps).
    apply lookup_lt_Some with q. exact Hq. }
  destruct (lookup_lt_is_Some_2 ps k Hk) as [p Hp].
  rewrite (applyCoulombForces_lookup g ps k p Hp) in Hq.
  injection Hq as <-. unfold accumulate. apply Hset.
  eapply Forall_lookup_1; eassumption.
Qed.

Lemma update_toolMade (g : Globals) (p : Particle) :
  toolMade p -> toolMade (update g p).
Proof.
  unfold toolMade. destruct (update_keeps_body g p) as (-> & -> & -> & _).
  tauto.
Qed.

Lemma tick_toolMade (g : Globals) (ps : list Particle) :
  Forall toolMade ps -> Forall toolMade (tick g ps).
Proof.
  intros Hall. unfold tick.
  assert (H : Forall toolMade (applyCoulombForces g ps))
    by (apply applyCoulombForces_Forall; [intros p v Hp; exact Hp | exact Hall]).
  induction H as [|p l Hp _ IH]; simpl; constructor;
    [apply update_toolMade; exact Hp | exact IH].
Qed.

Lemma tick_nil (g : Globals) : tick g [] = [].
Proof. reflexivity. Qed.

Lemma newParticle_toolMade (x y q : R) :
  q = 1 \/ q = -1 -> toolMade (newParticle x y q).
Proof. intros Hq. unfold toolMade. simpl. tauto. Qed.

Lemma place_wellFormed (s : Sketch) (x y q : R) :
  q = 1 \/ q = -1 -> wellFormed s -> wellFormed (place s x y q).
Proof.
  intros Hq (Hall & _ & Hdrag). unfold place, addParticle. repeat split.
  - simpl. apply Forall_app. split; [exact Hall|].
    constructor; [apply newParticle_toolMade; exact Hq | constructor].
  - right. reflexivity.
  - exact Hdrag.
Qed.

Lemma handle_wellFormed (s : Sketch) (e : Event) :
  wellFormed s -> wellFormed (handle s e).
Proof.
  intros Hs. pose proof Hs as (Hall & Hplaced & Hdrag).
  destruct e as [mx my first | mx my | | t | | | | v | v | v | ]; simpl;
    try (repeat split; assumption).
  - unfold mousePressed.
    destruct (negb (mouseInCanvas mx my)); [exact Hs|].
    destruct (activeTool s) as [[| | | |]|]; try exact Hs.
    + apply place_wellFormed; [left; reflexivity | exact Hs].
    + apply place_wellFormed; [right; reflexivity | exact Hs].
    + apply place_wellFormed; [|exact Hs].
      destruct first; [left | right]; reflexivity.
    + cbv zeta. repeat split; simpl; try assumption.
      destruct (hitIndex (particles s) mx my); simpl;
        [right; eexists; reflexivity | left; reflexivity].
    + repeat split; simpl.
      * apply deleteParticleAt_Forall. exact Hall.
      * destruct Hplaced as [-> | Hp]; [left; reflexivity | right; exact Hp].
      * destruct Hdrag as [Hd | [r Hr]]; [left; exact Hd | right].
        unfold afterErase. rewrite Hr.
        destruct (erasedIndex _ _ _ _); eexists; reflexivity.
  - unfold mouseDragged.
    destruct (activeTool s) as [[| | | |]|]; try exact Hs.
    destruct (dragging s) eqn:Hd; [|exact Hs].
    destruct (selectedParticle s) as [[i|]|] eqn:Hsel; try exact Hs.
    split; [|split]; simpl.
    + apply Forall_alter; [exact Hall|]. intros p _ Hp. exact Hp.
    + destruct Hplaced as [-> | Hp]; [left; reflexivity | right; exact Hp].
    + right. rewrite Hsel. eexists; reflexivity.
  - repeat split; simpl; try assumption. left. reflexivity.
  - repeat split; simpl.
    + constructor.
    + left. reflexivity.
    + destruct Hdrag as [Hd | [r Hr]]; [left; exact Hd | right].
      rewrite Hr. eexists; reflexivity.
  - repeat split; simpl; try assumption.
    + apply tick_toolMade. exact Hall.
    + destruct Hplaced as [-> | Hp]; [left; reflexivity | right; exact Hp].
Qed.

Lemma run_wellFormed (events : list Event) :
  forall s, wellFormed s -> wellFormed (run s events).
Proof.
  induction events as [|e es IH]; intros s Hs; [exact Hs|].
  apply (IH (handle s e)). apply handle_wellFormed. exact Hs.
Qed.

Lemma initialSketch_wellFormed : wellFormed initialSketch.
Proof.
  repeat split; simpl; [constructor | left; reflexivity | left; reflexivity].
Qed.

(** X20: in every state the sketch can reach from its initial state,
    through any sequence of mouse events, button clicks, slider moves and
    frames, every particle has charge [1] or [-1], mass [1] and radius
    [5]. *)
Theorem reachable_particles_tool_made (events : list Event) :
  Forall (fun p => (charge p = 1 \/ charge p = -1)
                   /\ mass p = 1 /\ radius p = 5)
         (particles (run initialSketch events)).
Proof.
  apply (run_wellFormed events initialSketch initialSketch_wellFormed).
Qed.

(** X21: in every reachable state, particles exist only if
    [hasPlacedParticle] is set, and [dragging] is set only while
    [selectedParticle] is not null. *)
Theorem reachable_flags (events : list Event) :
  (particles (run initialSketch events) = []
   \/ hasPlacedParticle (run initialSketch events) = true)
  /\ (dragging (run initialSketch events) = false
      \/ exists r, selectedParticle (run initialSketch events) = Some r).
Proof.
  destruct (run_wellFormed events initialSketch initialSketch_wellFormed)
    as (_ & Hplaced & Hdrag).
  split; [exact Hplaced | exact Hdrag].
Qed.

Lemma Rleb_true (a b : R) : Rleb a b = true <-> a <= b.
Proof.
  unfold Rleb. destruct (Rle_dec a b); split; intros; try easy.
Qed.

Lemma map_alter_same {A : Type} (f : Particle -> A)
  (h : Particle -> Particle) (ps : list Particle) :
  (forall p, f (h p) = f p) ->
  forall i : nat, map f (alter h i ps) = map f ps.
Proof.
  intros Hf. induction ps as [|p ps IH]; intros [|i]; try reflexivity.
  - change (alter h 0 (p :: ps)) with (h p :: ps). simpl.
    rewrite Hf. reflexivity.
  - change (alter h (S i) (p :: ps)) with (p :: alter h i ps). simpl.
    rewrite IH. reflexivity.
Qed.

Lemma mouseDragged_cases (s : Sketch) (mouseX mouseY : R) :
  mouseDragged s mouseX mouseY = s
  \/ exists i,
       mouseDragged s mouseX mouseY
       = set_particles s
           (alter (fun p => set_pos p (P5.createVector mouseX mouseY)) i
                  (particles s)).
Proof.
  unfold mouseDragged.
  destruct (activeTool s) as [[| | | |]|]; try (left; reflexivity).
  destruct (dragging s); [|left; reflexivity].
  destruct (selectedParticle s) as [[i|]|]; try (left; reflexivity).
  right. exists i. reflexivity.
Qed.

(** X23: dragging changes positions only: the number of particles and
    every velocity, accumulator, charge, mass and radius are as before, and
    so are the tool, the selection and the flags. *)
Theorem mouseDragged_moves_only (s : Sketch) (mouseX mouseY : R) :
  let s' := mouseDragged s mouseX mouseY in
  length (particles s') = length (particles s)
  /\ map vel (particles s') = map vel (particles s)
  /\ map acc (particles s') = map acc (particles s)
  /\ map charge (particles s') = map charge (particles s)
  /\ map mass (particles s') = map mass (particles s)
  /\ map radius (particles s') = map radius (particles s)
  /\ activeTool s' = activeTool s
  /\ selectedParticle s' = selectedParticle s
  /\ dragging s' = dragging s
  /\ hasPlacedParticle s' = hasPlacedParticle s
  /\ physics s' = physics s.
Proof.
  cbv zeta.
  destruct (mouseDragged_cases s mouseX mouseY) as [-> | [i ->]].
  - repeat split.
  - simpl. split; [apply length_alter|].
    repeat split; apply map_alter_same; reflexivity.
Qed.

Lemma negCount_toolMade (ps : list Particle) :
  Forall toolMade ps ->
  posCount ps = length (List.filter (fun p => Rltb 0 (charge p)) ps)
  /\ negCount ps = length (List.filter (fun p => Rltb (charge p) 0) ps)
  /\ (posCount ps + negCount ps = length ps)%nat.
Proof.
  unfold negCount, posCount.
  induction 1 as [|p ps [[Hq | Hq] _] _ (IHp & IHn & IHsum)]; simpl.
  - repeat split.
  - rewrite Hq. rewrite (proj2 (Reqb_true 1 1)) by reflexivity.
    rewrite (proj2 (Rltb_true 0 1)) by lra.
    rewrite (proj2 (Rltb_false 1 0)) by lra. simpl. lia.
  - rewrite Hq. rewrite (proj2 (Reqb_false (-1) 1)) by lra.
    rewrite (proj2 (Rltb_false 0 (-1))) by lra.
    rewrite (proj2 (Rltb_true (-1) 0)) by lra. simpl. lia.
Qed.

(** X24: in every reachable state, the counts of the info panel are
    right: "Positive" is the number of particles of positive charge,
    "Negative" the number of particles of negative charge, and the two add
    up to "Particles". *)
Theorem info_panel_counts (events : list Event) :
  let ps := particles (run initialSketch events) in
  posCount ps = length (List.filter (fun p => Rltb 0 (charge p)) ps)
  /\ negCount ps = length (List.filter (fun p => Rltb (charge p) 0) ps)
  /\ (posCount ps + negCount ps = length ps)%nat.
Proof.
  cbv zeta. apply negCount_toolMade.
  apply (run_wellFormed events initialSketch initialSketch_wellFormed).
Qed.

Lemma hitIndex_split (ps : list Particle) (x y : R) :
  forall i, hitIndex ps x y = Some i ->
    exists older p newer,
      ps = older ++ p :: newer /\ length older = i
      /\ Forall (misses x y) older /\ hit x y p = true.
Proof.
  induction ps as [|q qs IH]; intros i Hi; [discriminate|].
  simpl in Hi. destruct (hit x y q) eqn:Hq.
  - injection Hi as <-. exists [], q, qs.
    repeat split; [exact (List.Forall_nil _) | exact Hq].
  - destruct (hitIndex qs x y) as [k|] eqn:Hk; [|discriminate].
    injection Hi as <-.
    destruct (IH k eq_refl) as (older & p & newer & -> & Hlen & Hold & Hp).
    exists (q :: older), p, newer. repeat split.
    + simpl. rewrite Hlen. reflexivity.
    + constructor; assumption.
    + exact Hp.
Qed.

(** X25: pressing with the select tool on a point where [getParticleAt]
    finds a particle and then dragging moves exactly that particle, the
    oldest one under the press, to the mouse position: every other
    particle, and the moved particle's velocity, accumulator, charge, mass
    and radius, are untouched. *)
Theorem select_then_drag (s : Sketch) (x y x' y' : R) (first : bool)
  (p : Particle) :
  activeTool s = Some selectTool ->
  mouseInCanvas x y = true ->
  getParticleAt (particles s) x y = Some p ->
  exists older newer,
    particles s = older ++ p :: newer
    /\ Forall (misses x y) older
    /\ particles (mouseDragged (mousePressed s x y first) x' y')
       = older ++ set_pos p (P5.createVector x' y') :: newer.
Proof.
  intros Htool Hin Hget.
  rewrite getParticleAt_hitIndex in Hget.
  destruct (hitIndex (particles s) x y) as [i|] eqn:Hi; [|discriminate].
  simpl in Hget.
  destruct (hitIndex_split _ _ _ _ Hi)
    as (older & q & newer & Heq & Hlen & Hold & Hq).
  assert (q = p) as ->.
  { rewrite Heq, <- Hlen in Hget.
    rewrite list_lookup_middle in Hget by reflexivity. congruence. }
  exists older, newer. split; [exact Heq|]. split; [exact Hold|].
  unfold mousePressed. rewrite Hin, Htool, Hi. simpl.
  unfold mouseDragged. simpl. rewrite Htool. simpl.
  rewrite Heq, <- Hlen.
  replace (length older) with (length older + 0)%nat by lia.
  rewrite alter_app_r. reflexivity.
Qed.

Lemma select_then_drag_witness :
  let s := set_activeTool
             (set_particles initialSketch [newParticle 100 100 1])
             (Some selectTool) in
  activeTool s = Some selectTool
  /\ mouseInCanvas 100 100 = true
  /\ getParticleAt (particles s) 100 100 = Some (newParticle 100 100 1)
  /\ exists older newer,
       particles s = older ++ newParticle 100 100 1 :: newer
       /\ Forall (misses 100 100) older
       /\ particles (mouseDragged (mousePressed s 100 100 true) 300 200)
          = older ++ set_pos (newParticle 100 100 1)
                             (P5.createVector 300 200) :: newer.
Proof.
  cbv zeta.
  assert (Ht : activeTool (set_activeTool
                 (set_particles initialSketch [newParticle 100 100 1])
                 (Some selectTool)) = Some selectTool) by reflexivity.
  assert (Hin : mouseInCanvas 100 100 = true).
  { unfold mouseInCanvas, width, height, canvasWidth, canvasHeight.
    rewrite !(proj2 (Rleb_true _ _)) by lra. reflexivity. }
  assert (Hget : getParticleAt
                   (particles (set_activeTool
                      (set_particles initialSketch [newParticle 100 100 1])
                      (Some selectTool))) 100 100
                 = Some (newParticle 100 100 1)).
  { simpl. rewrite hit_newParticle. reflexivity. }
  split; [exact Ht|]. split; [exact Hin|]. split; [exact Hget|].
  apply (select_then_drag _ 100 100 300 200 true (newParticle 100 100 1)
           Ht Hin Hget).
Defined.

(** X26: a lone particle at rest with an empty accumulator inside the
    canvas is a fixed point of the frame: the tick returns it unchanged. *)
Theorem lone_particle_at_rest (g : Globals) (p : Particle) :
  vel p = P5.createVector 0 0 ->
  acc p = P5.createVector 0 0 ->
  inCanvas (pos p) ->
  tick g [p] = [p].
Proof.
  intros Hvel Hacc Hin. unfold tick. simpl. f_equal.
  rewrite update_moved.
  assert (Hm : moved g p = p).
  { unfold moved, resetStep, moveStep, accelerateStep, dampStep.
    destruct p as [[px py] v a q m r]. simpl in *. subst v a. simpl.
    unfold set_acc, set_pos, set_vel. simpl.
    f_equal; apply vector_eq; ring. }
  rewrite Hm. apply handleEdges_reflectStep_inside. exact Hin.
Qed.

Lemma lone_particle_at_rest_witness :
  vel (newParticle 100 100 1) = P5.createVector 0 0
  /\ acc (newParticle 100 100 1) = P5.createVector 0 0
  /\ inCanvas (pos (newParticle 100 100 1))
  /\ tick defaultGlobals [newParticle 100 100 1] = [newParticle 100 100 1].
Proof.
  assert (Hv : vel (newParticle 100 100 1) = P5.createVector 0 0)
    by reflexivity.
  assert (Ha : acc (newParticle 100 100 1) = P5.createVector 0 0)
    by reflexivity.
  assert (Hin : inCanvas (pos (newParticle 100 100 1))).
  { unfold inCanvas, canvasWidth, canvasHeight. simpl. lra. }
  repeat split; try assumption; try apply Hin.
  apply (lone_particle_at_rest defaultGlobals (newParticle 100 100 1)
           Hv Ha Hin).
Defined.
